(** * dynamo-backup-to-s3: the export pipeline, embedded and verified

    The development follows the two source files of the repository:
    [lib/readable-stream.js] (the sink between the scan and the upload) and
    the [DynamoBackup] prototype (table listing, table selection, the
    throughput limit, the paginated scan, the per-record transforms and the
    multi-table run).

    Part I holds the definitions, one per source function, with the JavaScript
    objects the code mutates kept in an explicit heap.  Part II holds the
    lemmas and the theorems. *)

From Stdlib Require Import ZArith Lia List String Ascii Bool Strings.Byte.
From Stdlib Require Import PrimFloat SpecFloat FloatOps DecimalString.
From stdpp Require Import base list strings gmap.

Open Scope Z_scope.

(* ====================================================================== *)
(** * Part I: definitions *)
(* ====================================================================== *)

(** ** JavaScript numbers

    A JavaScript number is an IEEE-754 binary64 value, which is what Rocq's
    primitive [float] is.  Only [_copyTable] computes with one. *)

Module Number.

(** The integer part of a finite number, rounding toward zero. *)
Definition truncate (s : bool) (m : positive) (e : Z) : Z :=
  let a := Z.shiftl (Z.pos m) e in if s then - a else a.

(** The two's-complement reading of the low 32 bits. *)
Definition wrap32 (z : Z) : Z :=
  let r := z mod 2 ^ 32 in if r <? 2 ^ 31 then r else r - 2 ^ 32.

(** ECMAScript [ToInt32]: NaN, the zeros and the infinities give 0, any
    other number is truncated and reduced modulo 2^32. *)
Definition ToInt32 (x : float) : Z :=
  match Prim2SF x with
  | S754_finite s m e => wrap32 (truncate s m e)
  | _ => 0
  end.

(** [x | 0]: both operands go through [ToInt32]. *)
Definition bitor0 (x : float) : Z := Z.lor (ToInt32 x) 0.

(** [Math.floor] of a finite number, as an integer; NaN and the infinities
    have no integer floor. *)
Definition floor (x : float) : option Z :=
  match Prim2SF x with
  | S754_zero _ => Some 0
  | S754_finite s m e => Some (Z.shiftl (if s then Z.neg m else Z.pos m) e)
  | _ => None
  end.

End Number.

(** ** ThroughputSampler: the limit computed in [_copyTable]

    [Math.max((data.Table.ProvisionedThroughput.ReadCapacityUnits * readPercentage) | 0, 1)] *)

Definition sampleLimit (ReadCapacityUnits readPercentage : float) : Z :=
  Z.max (Number.bitor0 (ReadCapacityUnits * readPercentage)%float) 1.

(** ** Errors

    A failed service call hands its callback an error object, and a [throw]
    raises one; only its message matters here. *)

Definition Err := string.

(** ** The JavaScript values the records are made of

    Objects and arrays are mutable and shared by reference: they live in a
    heap, and a value refers to them by address.  [_formatForDataPipeline]
    and the base64 step of [backupTable] assign to the properties of the
    objects they are handed, and what is serialized afterwards is the object
    as these assignments left it. *)

Module JS.

(** Numbers are integers here: the only numbers this code meets are array
    indices, lengths and the bytes of a [Buffer]. *)
Inductive val :=
| VUndefined
| VNull
| VBool (b : bool)
| VNum (n : Z)
| VStr (s : string)
| VBuf (bytes : list byte)
| VRef (l : nat).

(** A plain object lists its own enumerable properties in enumeration order;
    an array lists its elements. *)
Inductive object :=
| Obj (props : list (string * val))
| Arr (elems : list val).

Definition heap := list object.

(** A property key as an iteratee receives it: a string for a property of a
    plain object, a number for an index. *)
Inductive key :=
| KStr (s : string)
| KIdx (i : nat).

(** What a computation leaves: a value, a thrown error (both with the state
    reached), an exhausted call stack, or a step outside this model. *)
Inductive outcome (S A : Type) :=
| Ok (a : A) (s : S)
| Throw (e : string) (s : S)
| OutOfFuel
| OutOfModel.

Arguments Ok {S A} a s.
Arguments Throw {S A} e s.
Arguments OutOfFuel {S A}.
Arguments OutOfModel {S A}.

Definition M (S A : Type) : Type := S -> outcome S A.

Definition ret {S A} (a : A) : M S A := fun s => Ok a s.

Definition bind {S A B} (m : M S A) (k : A -> M S B) : M S B :=
  fun s =>
    match m s with
    | Ok a s' => k a s'
    | Throw e s' => Throw e s'
    | OutOfFuel => OutOfFuel
    | OutOfModel => OutOfModel
    end.

Definition throw {S A} (e : string) : M S A := fun s => Throw e s.

Definition out_of_fuel {S A} : M S A := fun _ => OutOfFuel.

Definition out_of_model {S A} : M S A := fun _ => OutOfModel.

(** [ToBoolean]. *)
Definition truthy (v : val) : bool :=
  match v with
  | VUndefined | VNull => false
  | VBool b => b
  | VNum n => negb (n =? 0)
  | VStr s => negb (String.eqb s "")
  | VBuf _ | VRef _ => true
  end.

Definition string_of_nat (n : nat) : string :=
  NilEmpty.string_of_uint (Nat.to_uint n).

Definition string_of_Z (n : Z) : string :=
  NilZero.string_of_int (Z.to_int n).

(** The index a property name denotes, when it is the canonical decimal
    form of one. *)
Definition index_of_string (s : string) : option nat :=
  match NilEmpty.uint_of_string s with
  | Some u =>
      let n := Nat.of_uint u in
      if String.eqb (string_of_nat n) s then Some n else None
  | None => None
  end.

(** [ToPropertyKey]. *)
Definition key_string (k : key) : string :=
  match k with
  | KStr s => s
  | KIdx i => string_of_nat i
  end.

Definition key_index (k : key) : option nat :=
  match k with
  | KStr s => index_of_string s
  | KIdx i => Some i
  end.

Fixpoint prop_get (name : string) (props : list (string * val)) : val :=
  match props with
  | [] => VUndefined
  | (k, v) :: props' => if String.eqb k name then v else prop_get name props'
  end.

Definition prop_has (name : string) (props : list (string * val)) : bool :=
  existsb (fun p => String.eqb (fst p) name) props.

Fixpoint prop_replace (name : string) (v : val) (props : list (string * val))
    : list (string * val) :=
  match props with
  | [] => []
  | (k, w) :: props' =>
      if String.eqb k name then (k, v) :: props'
      else (k, w) :: prop_replace name v props'
  end.

(** [o[k]].  It is used with the keys [_.each] has just enumerated and with
    the name [B]; neither is found on a prototype, so a name that is not an
    own property reads as [undefined]. *)
Definition own_length (k : key) (n : nat) : val :=
  if String.eqb (key_string k) "length" then VNum (Z.of_nat n) else VUndefined.

Definition object_get (o : object) (k : key) : val :=
  match o with
  | Obj props => prop_get (key_string k) props
  | Arr elems =>
      match key_index k with
      | Some i => default VUndefined (elems !! i)
      | None => own_length k (length elems)
      end
  end.

Definition get_prop (o : val) (k : key) : M heap val :=
  fun h =>
    match o with
    | VUndefined | VNull => Throw "TypeError: Cannot read properties of undefined" h
    | VBool _ | VNum _ => Ok VUndefined h
    | VStr s =>
        match key_index k with
        | Some i =>
            match String.get i s with
            | Some c => Ok (VStr (String c EmptyString)) h
            | None => Ok VUndefined h
            end
        | None => Ok (own_length k (String.length s)) h
        end
    | VBuf bytes =>
        match key_index k with
        | Some i =>
            match bytes !! i with
            | Some b => Ok (VNum (Z.of_N (Byte.to_N b))) h
            | None => Ok VUndefined h
            end
        | None => Ok (own_length k (length bytes)) h
        end
    | VRef l =>
        match h !! l with
        | Some o => Ok (object_get o k) h
        | None => OutOfModel
        end
    end.

(** [o[k] = v] on a plain object: an own property keeps its place, a new one
    goes last.  (A new index-like name would be enumerated before the string
    names; this code creates none, and neither that nor an assignment to
    something that is not a plain object is modelled.) *)
Definition set_prop (o : val) (k : key) (v : val) : M heap unit :=
  fun h =>
    match o with
    | VRef l =>
        match h !! l with
        | Some (Obj props) =>
            let name := key_string k in
            if prop_has name props
            then Ok tt (<[l := Obj (prop_replace name v props)]> h)
            else
              match index_of_string name with
              | Some _ => OutOfModel
              | None => Ok tt (<[l := Obj (props ++ [(name, v)])]> h)
              end
        | _ => OutOfModel
        end
    | _ => OutOfModel
    end.

End JS.

Import JS.

Declare Scope js_scope.
Delimit Scope js_scope with js.
Notation "x <- m ;; k" := (bind m (fun x => k))
  (at level 100, m at next level, right associativity) : js_scope.
Notation "m ;;; k" := (bind m (fun _ => k))
  (at level 100, right associativity) : js_scope.
Open Scope js_scope.

(** ** lodash: [_.each]

    [_.each(collection, iteratee)] fixes the keys it will visit before the
    first call and reads each value when its turn comes.  An array, a string
    and a [Buffer] are visited by index; so is any object with a numeric
    [length] (lodash calls it array-like); any other object is visited by
    its own keys; [null], [undefined], booleans and numbers have none.  Both
    iteratees of this program return [undefined], so no visit is cut short. *)

Module Lodash.

Definition MAX_SAFE_INTEGER : Z := 2 ^ 53 - 1.

Definition array_like_length (props : list (string * val)) : option nat :=
  match prop_get "length" props with
  | VNum n => if (0 <=? n) && (n <=? MAX_SAFE_INTEGER) then Some (Z.to_nat n) else None
  | _ => None
  end.

Definition indices (n : nat) : list key := map KIdx (seq 0 n).

Definition each_keys (collection : val) : M heap (list key) :=
  fun h =>
    match collection with
    | VRef l =>
        match h !! l with
        | Some (Arr elems) => Ok (indices (length elems)) h
        | Some (Obj props) =>
            match array_like_length props with
            | Some n => Ok (indices n) h
            | None => Ok (map (fun p => KStr (fst p)) props) h
            end
        | None => OutOfModel
        end
    | VStr s => Ok (indices (String.length s)) h
    | VBuf bytes => Ok (indices (length bytes)) h
    | _ => Ok [] h
    end.

Fixpoint for_each (collection : val) (keys : list key)
    (iteratee : val -> key -> M heap unit) : M heap unit :=
  match keys with
  | [] => ret tt
  | k :: keys' =>
      v <- get_prop collection k ;;
      iteratee v k ;;;
      for_each collection keys' iteratee
  end.

Definition each (collection : val) (iteratee : val -> key -> M heap unit) : M heap unit :=
  keys <- each_keys collection ;;
  for_each collection keys iteratee.

End Lodash.

(** ** [JSON.stringify] and [Buffer] *)

Module JSON.

Definition quotation_mark : string := String "034"%char EmptyString.

Definition hex_digit (n : N) : ascii :=
  nth (N.to_nat n) (list_ascii_of_string "0123456789abcdef") "0"%char.

(** [QuoteJSONString], one character at a time: the quotation mark, the
    backslash and the control characters are escaped. *)
Definition escape (c : ascii) : string :=
  let n := N_of_ascii c in
  if (n =? 34)%N then "\" +:+ quotation_mark
  else if (n =? 92)%N then "\\"
  else if (n =? 8)%N then "\b"
  else if (n =? 12)%N then "\f"
  else if (n =? 10)%N then "\n"
  else if (n =? 13)%N then "\r"
  else if (n =? 9)%N then "\t"
  else if (n <? 32)%N then
    "\u00" +:+ String (hex_digit (n / 16)) (String (hex_digit (n mod 16)) EmptyString)
  else String c EmptyString.

Fixpoint escape_all (s : string) : string :=
  match s with
  | EmptyString => EmptyString
  | String c s' => escape c +:+ escape_all s'
  end.

Definition quote (s : string) : string :=
  quotation_mark +:+ escape_all s +:+ quotation_mark.

Definition join (parts : list string) : string := String.concat "," parts.

(** A member of an object: skipped when its value has no JSON text. *)
Definition member (name : string) (text : option string) : option string :=
  (fun t => quote name +:+ ":" +:+ t) <$> text.

(** An element of an array: [null] when its value has no JSON text. *)
Definition element (text : option string) : string := default "null" text.

(** [Buffer.prototype.toJSON] followed by the serialization of its result. *)
Definition buffer_text (bytes : list byte) : string :=
  "{" +:+ quote "type" +:+ ":" +:+ quote "Buffer" +:+ "," +:+ quote "data" +:+ ":["
      +:+ join (map (fun b => string_of_Z (Z.of_N (Byte.to_N b))) bytes) +:+ "]}".

(** [SerializeJSONProperty].  The inner [None] is [undefined]: the value has
    no JSON text.  The outer [None] is no answer: the nesting is deeper than
    [fuel], as that of a cyclic structure always is, or an address is not
    allocated. *)
Fixpoint serialize (fuel : nat) (h : heap) (v : val) : option (option string) :=
  match v with
  | VUndefined => Some None
  | VNull => Some (Some "null")
  | VBool b => Some (Some (if b then "true" else "false"))
  | VNum n => Some (Some (string_of_Z n))
  | VStr s => Some (Some (quote s))
  | VBuf bytes => Some (Some (buffer_text bytes))
  | VRef l =>
      match fuel with
      | O => None
      | S fuel' =>
          match h !! l with
          | Some (Arr elems) =>
              texts ← mapM (serialize fuel' h) elems;
              Some (Some ("[" +:+ join (map element texts) +:+ "]"))
          | Some (Obj props) =>
              texts ← mapM (fun p => member (fst p) <$> serialize fuel' h (snd p)) props;
              Some (Some ("{" +:+ join (omap id texts) +:+ "}"))
          | None => None
          end
      end
  end.

(** [JSON.stringify(v)] where a string is expected. *)
Definition stringify (fuel : nat) (v : val) : M heap string :=
  fun h =>
    match serialize fuel h v with
    | Some (Some text) => Ok text h
    | Some None => OutOfModel
    | None => OutOfFuel
    end.

End JSON.

Module Buffer.

Definition alphabet : list ascii :=
  list_ascii_of_string "ABCDEFGHIJKLMNOPQRSTUVWXYZabcdefghijklmnopqrstuvwxyz0123456789+/".

Definition digit (n : N) : ascii := nth (N.to_nat n) alphabet "="%char.

(** [buf.toString('base64')]: three bytes give four digits, a shorter last
    group is padded with [=]. *)
Fixpoint base64 (bytes : list byte) : string :=
  match bytes with
  | [] => EmptyString
  | [a] =>
      let a := Byte.to_N a in
      String (digit (a / 4)) (String (digit (a mod 4 * 16)) "==")
  | [a; b] =>
      let a := Byte.to_N a in
      let b := Byte.to_N b in
      String (digit (a / 4)) (String (digit (a mod 4 * 16 + b / 16))
        (String (digit (b mod 16 * 4)) "="))
  | a :: b :: c :: rest =>
      let a := Byte.to_N a in
      let b := Byte.to_N b in
      let c := Byte.to_N c in
      String (digit (a / 4)) (String (digit (a mod 4 * 16 + b / 16))
        (String (digit (b mod 16 * 4 + c / 64)) (String (digit (c mod 64)) (base64 rest))))
  end%N.

(** [new Buffer(v)] for a [Buffer] (a copy) and for a string (its bytes);
    the other arguments the constructor accepts are not modelled. *)
Definition from (v : val) : M heap (list byte) :=
  match v with
  | VBuf bytes => ret bytes
  | VStr s => ret (list_byte_of_string s)
  | _ => out_of_model
  end.

End Buffer.

(** ** Records as the SDK hands them over

    A scan response arrives as JSON text; the SDK parses it into objects no
    one else holds.  [tree] is the parsed document, [img] the objects it
    becomes at the free addresses from [n] on (children before their parent)
    together with the value that refers to them, and [load] puts them at the
    end of the heap.  The wire format has no JSON number: [N] carries a
    string, [B] a [Buffer].  [TUndefined] is the value of a property that
    was assigned [undefined]. *)

#[local] Unset Elimination Schemes.

Inductive tree :=
| TUndefined
| TNull
| TBool (b : bool)
| TStr (s : string)
| TBuf (bytes : list byte)
| TArr (elems : list tree)
| TObj (props : list (string * tree)).

#[local] Set Elimination Schemes.

Section Allocation.

Context {A B : Type} (f : A -> nat -> list object * B).

Fixpoint img_all (xs : list A) (n : nat) : list object * list B :=
  match xs with
  | [] => ([], [])
  | x :: xs' =>
      let '(objs, v) := f x n in
      let '(objs', vs) := img_all xs' (n + length objs)%nat in
      (objs ++ objs', v :: vs)
  end.

End Allocation.

Definition img_prop (f : tree -> nat -> list object * val) (p : string * tree) (n : nat)
    : list object * (string * val) :=
  let '(objs, v) := f (snd p) n in (objs, (fst p, v)).

Fixpoint img (t : tree) (n : nat) : list object * val :=
  match t with
  | TUndefined => ([], VUndefined)
  | TNull => ([], VNull)
  | TBool b => ([], VBool b)
  | TStr s => ([], VStr s)
  | TBuf bytes => ([], VBuf bytes)
  | TArr elems =>
      let '(objs, vs) := img_all img elems n in
      (objs ++ [Arr vs], VRef (n + length objs)%nat)
  | TObj props =>
      let '(objs, kvs) := img_all (img_prop img) props n in
      (objs ++ [Obj kvs], VRef (n + length objs)%nat)
  end.

Definition load (t : tree) : M heap val :=
  fun h => let '(objs, v) := img t (length h) in Ok v (h ++ objs).

Definition load_all (ts : list tree) : M heap (list val) :=
  fun h => let '(objs, vs) := img_all img ts (length h) in Ok vs (h ++ objs).

(** The JSON text of a parsed document. *)
Fixpoint stringify_tree (t : tree) : option string :=
  match t with
  | TUndefined => None
  | TNull => Some "null"
  | TBool b => Some (if b then "true" else "false")
  | TStr s => Some (JSON.quote s)
  | TBuf bytes => Some (JSON.buffer_text bytes)
  | TArr elems =>
      Some ("[" +:+ JSON.join (map (fun t => JSON.element (stringify_tree t)) elems) +:+ "]")
  | TObj props =>
      Some ("{" +:+ JSON.join (omap (fun p => JSON.member (fst p) (stringify_tree (snd p))) props)
                +:+ "}")
  end.

(** The nesting depth of the objects of a document. *)
Fixpoint height (t : tree) : nat :=
  match t with
  | TArr elems => S (foldr Nat.max 0%nat (map height elems))
  | TObj props => S (foldr Nat.max 0%nat (map (fun p => height (snd p)) props))
  | _ => 0%nat
  end.

(** ** AttributeValueTransformer: [_formatForDataPipeline] *)

Definition lower (c : ascii) : ascii :=
  let n := N_of_ascii c in
  if (65 <=? n)%N && (n <=? 90)%N then ascii_of_N (n + 32) else c.

Fixpoint toLowerCase (s : string) : string :=
  match s with
  | EmptyString => EmptyString
  | String c s' => String (lower c) (toLowerCase s')
  end.

(** [k === s] for a string [s]: a number is never equal to it. *)
Definition strict_eq (k : key) (s : string) : bool :=
  match k with
  | KStr t => String.eqb t s
  | KIdx _ => false
  end.

Definition _getDataPipelineAttributeValueKey {S} (type : key) : M S string :=
  if existsb (strict_eq type) ["S"; "N"; "B"; "M"; "L"; "NULL"]
  then ret (toLowerCase (key_string type))
  else if strict_eq type "BOOL" then ret "bOOL"%string
  else if strict_eq type "SS" then ret "sS"%string
  else if strict_eq type "NS" then ret "nS"%string
  else if strict_eq type "BS" then ret "bS"%string
  else throw ("Unknown AttributeValue key: " +:+ key_string type).

(** [fuel] bounds the depth of the calls, as the call stack does. *)
Fixpoint _formatForDataPipeline (fuel : nat) (item : val) : M heap string :=
  match fuel with
  | O => out_of_fuel
  | S fuel' =>
      Lodash.each item (fun value _ =>
        Lodash.each value (fun v k =>
          dataPipelineValueKey <- _getDataPipelineAttributeValueKey k ;;
          set_prop value (KStr dataPipelineValueKey) v ;;;
          set_prop value k VUndefined ;;;
          if strict_eq k "M" || strict_eq k "L"
          then _ <- _formatForDataPipeline fuel' v ;; ret tt
          else ret tt)) ;;;
      JSON.stringify fuel item
  end.

(** The two functions [_formatForDataPipeline] hands to [_.each], by name;
    [recurse] is the recursive call. *)
Definition rename_tag (recurse : val -> M heap string) (value v : val) (k : key)
    : M heap unit :=
  dataPipelineValueKey <- _getDataPipelineAttributeValueKey k ;;
  set_prop value (KStr dataPipelineValueKey) v ;;;
  set_prop value k VUndefined ;;;
  if strict_eq k "M" || strict_eq k "L"
  then _ <- recurse v ;; ret tt
  else ret tt.

Definition rename_tags (recurse : val -> M heap string) (value : val) (_ : key)
    : M heap unit :=
  Lodash.each value (rename_tag recurse value).

(** Lines 95 to 99 of [backupTable]: the base64 step on one item. *)
Definition encodeBinary (item : val) : M heap unit :=
  Lodash.each item (fun value _ =>
    if truthy value then
      B <- get_prop value (KStr "B") ;;
      if truthy B then
        bytes <- Buffer.from B ;;
        set_prop value (KStr "B") (VStr (Buffer.base64 bytes))
      else ret tt
    else ret tt).

(** ** Records, by their shape

    A record maps attribute names to typed values; a typed value is an
    object with one property, the type tag, whose value is the payload; the
    payload of an [M] or [L] is again a record or a list of typed values.
    [shape] says so of a document, whatever its tags. *)

Definition is_container (tag : string) : bool :=
  String.eqb tag "M" || String.eqb tag "L".

Fixpoint shape (item : tree) : bool :=
  let value (av : tree) : bool :=
    match av with
    | TObj [(tag, payload)] => if is_container tag then shape payload else true
    | _ => false
    end in
  match item with
  | TObj attrs => bool_decide (NoDup (map fst attrs)) && forallb (fun p => value (snd p)) attrs
  | TArr avs => forallb value avs
  | _ => false
  end.

(** The type tags of a record, in the order the transform meets them: a tag
    before the tags inside its payload, and only the payload of an [M] or
    [L] is entered. *)
Fixpoint tags (item : tree) : list string :=
  let value (av : tree) : list string :=
    match av with
    | TObj [(tag, payload)] => tag :: (if is_container tag then tags payload else [])
    | _ => []
    end in
  match item with
  | TObj attrs => flat_map (fun p => value (snd p)) attrs
  | TArr avs => flat_map value avs
  | _ => []
  end.

(** The fixed table of the data-pipeline format. *)
Definition output_keys : list (string * string) :=
  [("S", "s"); ("N", "n"); ("B", "b"); ("M", "m"); ("L", "l"); ("NULL", "null");
   ("BOOL", "bOOL"); ("SS", "sS"); ("NS", "nS"); ("BS", "bS")]%string.

Definition output_key (tag : string) : option string :=
  snd <$> List.find (fun p => String.eqb (fst p) tag) output_keys.

(** The type tags the table lists. *)
Definition type_tags : list string := map fst output_keys.

Definition known_tag (tag : string) : bool := bool_decide (is_Some (output_key tag)).

Definition unknown_key (tag : string) : Err := "Unknown AttributeValue key: " +:+ tag.

(** The record the claim describes: every tag replaced by its output key,
    at every level, attributes and payloads otherwise as they were. *)
Fixpoint renamed (item : tree) : tree :=
  let value (av : tree) : tree :=
    match av with
    | TObj [(tag, payload)] =>
        TObj [(default tag (output_key tag),
               if is_container tag then renamed payload else payload)]
    | _ => av
    end in
  match item with
  | TObj attrs => TObj (map (fun p => (fst p, value (snd p))) attrs)
  | TArr avs => TArr (map value avs)
  | _ => item
  end.

Section MapResult.

Context {A B : Type} (f : A -> Err + B).

Fixpoint map_result (xs : list A) : Err + list B :=
  match xs with
  | [] => inr []
  | x :: xs' =>
      match f x with
      | inl e => inl e
      | inr y =>
          match map_result xs' with
          | inl e => inl e
          | inr ys => inr (y :: ys)
          end
      end
  end.

End MapResult.

(** [_formatForDataPipeline] read as a function on documents: the record its
    assignments leave behind (the tag stays, with the value [undefined], and
    the output key is added after it), or the error it throws. *)
Fixpoint format_tree (item : tree) : Err + tree :=
  let value (av : tree) : Err + tree :=
    match av with
    | TObj [(tag, payload)] =>
        match output_key tag with
        | None => inl (unknown_key tag)
        | Some key =>
            if is_container tag then
              match format_tree payload with
              | inl e => inl e
              | inr payload' => inr (TObj [(tag, TUndefined); (key, payload')])
              end
            else inr (TObj [(tag, TUndefined); (key, payload)])
        end
    | _ => inr av
    end in
  match item with
  | TObj attrs =>
      match map_result (fun p => match value (snd p) with
                                 | inl e => inl e
                                 | inr av' => inr (fst p, av')
                                 end) attrs with
      | inl e => inl e
      | inr attrs' => inr (TObj attrs')
      end
  | TArr avs =>
      match map_result value avs with
      | inl e => inl e
      | inr avs' => inr (TArr avs')
      end
  | _ => inr item
  end.

Definition format_value (av : tree) : Err + tree :=
  match av with
  | TObj [(tag, payload)] =>
      match output_key tag with
      | None => inl (unknown_key tag)
      | Some key =>
          if is_container tag then
            match format_tree payload with
            | inl e => inl e
            | inr payload' => inr (TObj [(tag, TUndefined); (key, payload')])
            end
          else inr (TObj [(tag, TUndefined); (key, payload)])
      end
  | _ => inr av
  end.

(** The record the base64 step of the claim describes: the payload of a
    top-level [B] becomes its base64 text, nothing else changes. *)
Definition encoded_value (av : tree) : tree :=
  match av with
  | TObj [(tag, TBuf bytes)] =>
      if String.eqb tag "B" then TObj [(tag, TStr (Buffer.base64 bytes))] else av
  | _ => av
  end.

Definition encoded (item : tree) : tree :=
  match item with
  | TObj attrs => TObj (map (fun p => (fst p, encoded_value (snd p))) attrs)
  | TArr avs => TArr (map encoded_value avs)
  | _ => item
  end.

(** The payload of every top-level [B] is a [Buffer], as the SDK delivers it. *)
Definition binary_value (av : tree) : bool :=
  match av with
  | TObj [(tag, payload)] =>
      if String.eqb tag "B" then match payload with TBuf _ => true | _ => false end else true
  | _ => true
  end.

Definition binary (item : tree) : bool :=
  match item with
  | TObj attrs => forallb (fun p => binary_value (snd p)) attrs
  | TArr avs => forallb binary_value avs
  | _ => true
  end.

(** [tags] and [renamed] on one typed value. *)
Definition tags_value (av : tree) : list string :=
  match av with
  | TObj [(tag, payload)] => tag :: (if is_container tag then tags payload else [])
  | _ => []
  end.

Definition renamed_value (av : tree) : tree :=
  match av with
  | TObj [(tag, payload)] =>
      TObj [(default tag (output_key tag),
             if is_container tag then renamed payload else payload)]
  | _ => av
  end.

(** The first tag of a record that the table does not list. *)
Definition first_unknown (item : tree) : option string :=
  List.find (fun tag => negb (known_tag tag)) (tags item).

(** The two halves of [img], for one document and for a list of them. *)
Definition objects_of (t : tree) (n : nat) : list object := fst (img t n).

Definition value_of (t : tree) (n : nat) : val := snd (img t n).

Definition objects_all (ts : list tree) (n : nat) : list object := fst (img_all img ts n).

Definition values_all (ts : list tree) (n : nat) : list val := snd (img_all img ts n).

(** The function [encodeBinary] hands to [_.each], by name. *)
Definition encode_value (value : val) (_ : key) : M heap unit :=
  if truthy value then
    B <- get_prop value (KStr "B") ;;
    if truthy B then
      bytes <- Buffer.from B ;;
      set_prop value (KStr "B") (VStr (Buffer.base64 bytes))
    else ret tt
  else ret tt.

(** A typed value of the right shape. *)
Definition value_shape (av : tree) : bool :=
  match av with
  | TObj [(tag, payload)] => if is_container tag then shape payload else true
  | _ => false
  end.

(** Two documents that occupy the same addresses. *)
Definition same_place (t t' : tree) : Prop :=
  forall n, length (objects_of t' n) = length (objects_of t n) /\ value_of t' n = value_of t n.

(** An iteratee carries out [g] on a child document [t], visited under the
    key [k]: wherever the objects of [t] lie in the heap, it leaves in their
    place those of the document [g t], or throws the error [g t]. *)
Definition carries_out (iteratee : val -> key -> M heap unit) (g : tree -> Err + tree)
    (k : key) (t : tree) : Prop :=
  forall pre post,
    let n := length pre in
    match g t with
    | inr t' =>
        same_place t t' /\
        iteratee (value_of t n) k (pre ++ objects_of t n ++ post) =
        Ok tt (pre ++ objects_of t' n ++ post)
    | inl e =>
        exists h', iteratee (value_of t n) k (pre ++ objects_of t n ++ post) = Throw e h'
    end.

(** [_formatForDataPipeline] carries out [format_tree] on a loaded record,
    wherever its objects lie. *)
Definition formats (fuel : nat) (item : tree) : Prop :=
  forall pre post,
    let n := length pre in
    match format_tree item with
    | inr item' =>
        same_place item item' /\
        exists text,
          stringify_tree item' = Some text /\
          _formatForDataPipeline fuel (value_of item n) (pre ++ objects_of item n ++ post) =
          Ok text (pre ++ objects_of item' n ++ post)
    | inl e =>
        exists h', _formatForDataPipeline fuel (value_of item n)
                     (pre ++ objects_of item n ++ post) = Throw e h'
    end.


(** ** StreamSink: [lib/readable-stream.js]

    [ReadableStream] extends Node's [stream.Readable].  Of the base class the
    model keeps what the subclass relies on: the internal buffer of chunks
    pushed and not yet read, the high-water mark and the end-of-stream flag.
    [_data] is the field of the subclass: the one pending chunk. *)

Record ReadableStream := {
  _data : string;
  buffer : list string;
  highWaterMark : nat;
  ended : bool
}.

(** [new ReadableStream(options)]: a byte stream has a high-water mark of
    16384 unless the options give one. *)
Definition new_ReadableStream (options : option nat) : ReadableStream :=
  {| _data := ""; buffer := []; highWaterMark := default (16 * 1024)%nat options; ended := false |}.

(** [state.length]: the characters held in the internal buffer. *)
Definition buffered (s : ReadableStream) : nat :=
  sum_list_with String.length (buffer s).

(** [Readable.push(chunk)], with [None] for [push(null)].  An empty chunk is
    not buffered, and nothing is buffered after the end of the stream. *)
Definition push (chunk : option string) (s : ReadableStream) : ReadableStream :=
  match chunk with
  | None =>
      {| _data := _data s; buffer := buffer s; highWaterMark := highWaterMark s; ended := true |}
  | Some c =>
      if ended s || String.eqb c "" then s
      else {| _data := _data s; buffer := buffer s ++ [c];
              highWaterMark := highWaterMark s; ended := ended s |}
  end.

(** [_read()]: push the pending chunk, then clear it.  (The value returned by
    [push] is returned and used by no caller.) *)
Definition _read (s : ReadableStream) : ReadableStream :=
  let s := push (Some (_data s)) s in
  {| _data := ""; buffer := buffer s; highWaterMark := highWaterMark s; ended := ended s |}.

(** [Readable.read(0)]: the base class calls [_read] only while the stream
    has not ended and the buffer is empty or below the high-water mark. *)
Definition wants_data (s : ReadableStream) : bool :=
  negb (ended s) && (Nat.eqb (buffered s) 0 || Nat.ltb (buffered s) (highWaterMark s)).

Definition read0 (s : ReadableStream) : ReadableStream :=
  if wants_data s then _read s else s.

(** [append(data)]: [this._data = data; this.read(0)]. *)
Definition append (data : string) (s : ReadableStream) : ReadableStream :=
  read0 {| _data := data; buffer := buffer s; highWaterMark := highWaterMark s; ended := ended s |}.

(** [end()]: [this.push(null)]. *)
Definition end_ (s : ReadableStream) : ReadableStream := push None s.

(** The consumer's [read()]: it empties the buffer, which is then below the
    high-water mark, so the base class first calls [_read] and the chunk it
    pushes is part of what the consumer receives. *)
Definition consumer_read (s : ReadableStream) : list string * ReadableStream :=
  let s := if ended s then s else _read s in
  (buffer s,
   {| _data := _data s; buffer := []; highWaterMark := highWaterMark s; ended := ended s |}).

(** A chunk of [n] characters. *)
Definition chunk_of (n : nat) : string :=
  string_of_list_ascii (replicate n "x"%char).

(** ** Options *)

(** The fields the constructor [DynamoBackup(options)] keeps, after its
    defaults ([options.excludedTables || []], [options.stopOnFailure || false]
    and so on).  [includedTables] stays optional: the constructor copies it
    as it is. *)
Record DynamoBackup := {
  excludedTables : list string;
  includedTables : option (list string);
  readPercentage : float;
  stopOnFailure : bool;
  base64Binary : bool;
  saveDataPipelineFormat : bool
}.

(** ** TableEnumerator: [listTables] and [_fetchTables]

    The storage service is an input: the responses it gives to the
    successive [ddb.listTables] requests of one run, in order.  A function
    of this section returns the requests it issued and the arguments its
    callback was invoked with ([None] while a request is still unanswered). *)

Record ListTablesInput := { ExclusiveStartTableName : option string }.

Record ListTablesOutput := {
  TableNames : list string;
  LastEvaluatedTableName : option string
}.

Definition ListTablesResult : Type := Err + ListTablesOutput.

(** JavaScript truthiness of a value that is [undefined]/[null] or a string:
    the empty string is falsy. *)
Definition truthy_string (s : option string) : bool :=
  match s with
  | Some s => negb (String.eqb s "")
  | None => false
  end.

(** [callback(err, null)] and [callback(null, tables)]. *)
Definition ListTablesCallback : Type := option Err * option (list string).

Fixpoint _fetchTables (responses : list ListTablesResult)
    (lastTable : option string) (tables : list string)
    : list ListTablesInput * option ListTablesCallback :=
  let params :=
    {| ExclusiveStartTableName := if truthy_string lastTable then lastTable else None |} in
  match responses with
  | [] => ([params], None)
  | inl err :: _ => ([params], Some (Some err, None))
  | inr data :: responses' =>
      let tables := tables ++ TableNames data in
      if truthy_string (LastEvaluatedTableName data) then
        let '(requests, result) :=
          _fetchTables responses' (LastEvaluatedTableName data) tables in
        (params :: requests, result)
      else ([params], Some (None, Some tables))
  end.

Definition listTables (responses : list ListTablesResult)
    : list ListTablesInput * option ListTablesCallback :=
  _fetchTables responses None [].

(** ** Table selection in [backupAllTables]

    [_.difference(array, values)] keeps the elements of [array] that are not
    in [values], in order and with their repetitions; that is stdpp's
    [list_difference].  [_.intersection(a, b)] keeps the elements of [a] that
    are in [b], each once, at its first position. *)

Fixpoint intersection_from (seen a b : list string) : list string :=
  match a with
  | [] => []
  | x :: a' =>
      if bool_decide (x ∉ seen) && bool_decide (x ∈ b)
      then x :: intersection_from (x :: seen) a' b
      else intersection_from seen a' b
  end.

Definition _intersection (a b : list string) : list string :=
  intersection_from [] a b.

Definition _difference (array values : list string) : list string :=
  list_difference array values.

(** Lines 130 to 132 of [backupAllTables]. *)
Definition selectTables (self : DynamoBackup) (tables : list string) : list string :=
  let includedTables := default tables (includedTables self) in
  let tables := _difference tables (excludedTables self) in
  _intersection tables includedTables.

(** ** BackupOrchestrator: the multi-table run

    What a run lets its caller see: the events it emits and the one
    invocation of the final callback.  [completed] is the counter of
    [async.each]: the jobs whose [done] has not been called yet. *)

Inductive Event :=
| start_backup (table : string)
| error (table : string) (err : Err)
| end_backup (table : string).

Record Run := {
  emitted : list Event;
  completed : nat;
  result : option (option Err)
}.

Definition emit (e : Event) (r : Run) : Run :=
  {| emitted := emitted r ++ [e]; completed := completed r; result := result r |}.

(** [async.each] wraps the final callback so that it runs at most once. *)
Definition callback_once (err : option Err) (r : Run) : Run :=
  match result r with
  | Some _ => r
  | None => {| emitted := emitted r; completed := completed r; result := Some err |}
  end.

(** The [done] that [async.each] passes to its iteratee: an error goes to the
    final callback at once, the last job to finish reports success. *)
Definition done (err : option Err) (r : Run) : Run :=
  let r := {| emitted := emitted r; completed := Nat.pred (completed r); result := result r |} in
  match err with
  | Some e => callback_once (Some e) r
  | None => if Nat.eqb (completed r) 0 then callback_once None r else r
  end.

(** The two completions of a table's job.  [ScanDone] is the invocation of
    the function passed last to [_copyTable] (lines 110 to 118), [UploadDone]
    that of the callback of [upload.send] (lines 77 to 88); the service and
    the uploader decide when they happen and with which error. *)
Inductive Completion :=
| ScanDone (table : string) (err : option Err)
| UploadDone (table : string) (err : option Err).

Definition handle (self : DynamoBackup) (c : Completion) (r : Run) : Run :=
  match c with
  | ScanDone table err =>
      (* stream.end(); if (err) self.emit('error', ...) *)
      match err with
      | Some e => emit (error table e) r
      | None => r
      end
  | UploadDone table err =>
      let r := match err with Some e => emit (error table e) r | None => r end in
      let r := emit (end_backup table) r in
      (* callback(err): lines 136 to 144 *)
      match err with
      | Some e => if stopOnFailure self then done (Some e) r else done None r
      | None => done None r
      end
  end.

(** [async.each(tables, iteratee, callback)]: every job is started before
    any completion is handled; no job means immediate success. *)
Definition async_each_start (tables : list string) (r : Run) : Run :=
  let r := {| emitted := emitted r ++ map start_backup tables;
              completed := length tables;
              result := result r |} in
  if Nat.eqb (length tables) 0 then callback_once None r else r.

Definition backupAllTables (self : DynamoBackup)
    (responses : list ListTablesResult) (completions : list Completion) : Run :=
  let r0 := {| emitted := []; completed := 0; result := None |} in
  match snd (listTables responses) with
  | None => r0
  | Some (Some err, _) => callback_once (Some err) r0
  | Some (None, tables) =>
      let tables := selectTables self (default [] tables) in
      fold_left (fun r c => handle self c r) completions (async_each_start tables r0)
  end.

(** The errors the uploads of a run ended with, in the order they ended. *)
Definition uploads (completions : list Completion) : list (option Err) :=
  omap (fun c => match c with UploadDone _ err => Some err | ScanDone _ _ => None end)
       completions.

(** The first error of a list of outcomes. *)
Definition first_error (outcomes : list (option Err)) : option Err :=
  head (omap id outcomes).

(** The tables whose backup was started. *)
Definition started (r : Run) : list string :=
  omap (fun e => match e with start_backup t => Some t | _ => None end) (emitted r).

(** A response carries a marker when [data.LastEvaluatedTableName] is
    truthy, which is the test [_fetchTables] makes. *)
Definition has_marker (data : ListTablesOutput) : Prop :=
  truthy_string (LastEvaluatedTableName data) = true.

(** The request that follows a page: its marker is the exclusive start. *)
Definition next_request (data : ListTablesOutput) : ListTablesInput :=
  {| ExclusiveStartTableName := LastEvaluatedTableName data |}.

(** ** ScanPaginator and the per-table pipeline

    The state of one table's export: the heap holding the items, the sink,
    and what the export lets others observe, which no code reads back: the
    arguments of the calls of [stream.append] in order, the scan requests
    sent to the service, the events emitted, and the arguments of the calls
    of the function that ends the scan. *)

Record World := {
  heap_of : heap;
  stream : ReadableStream;
  appended : list string;
  requests : list (string * Z * option (list (string * tree)));
  events : list Event;
  finished : list (option Err)
}.

Definition with_heap (h : heap) (w : World) : World :=
  {| heap_of := h; stream := stream w; appended := appended w;
     requests := requests w; events := events w; finished := finished w |}.

(** A computation on the heap, within the state of the export. *)
Definition on_heap {A} (m : M heap A) : M World A :=
  fun w =>
    match m (heap_of w) with
    | Ok a h => Ok a (with_heap h w)
    | Throw e h => Throw e (with_heap h w)
    | OutOfFuel => OutOfFuel
    | OutOfModel => OutOfModel
    end.

Definition on_stream (f : ReadableStream -> ReadableStream) (w : World) : World :=
  {| heap_of := heap_of w; stream := f (stream w); appended := appended w;
     requests := requests w; events := events w; finished := finished w |}.

(** [stream.append(data)]. *)
Definition stream_append (data : string) : M World unit :=
  fun w =>
    let w := on_stream (append data) w in
    Ok tt {| heap_of := heap_of w; stream := stream w; appended := appended w ++ [data];
             requests := requests w; events := events w; finished := finished w |}.

(** [stream.end()]. *)
Definition stream_end : M World unit :=
  fun w => Ok tt (on_stream end_ w).

(** [self.emit(...)]. *)
Definition self_emit (e : Event) : M World unit :=
  fun w =>
    Ok tt {| heap_of := heap_of w; stream := stream w; appended := appended w;
             requests := requests w; events := events w ++ [e]; finished := finished w |}.

(** The scan parameters, as [ddb.scan] receives them: [TableName], [Limit]
    and the [ExclusiveStartKey], which is set only when [startKey] is
    truthy, as every key object is. *)
Definition ddb_scan_request (tableName : string) (limit : Z)
    (startKey : option (list (string * tree))) : M World unit :=
  fun w =>
    Ok tt {| heap_of := heap_of w; stream := stream w; appended := appended w;
             requests := requests w ++ [(tableName, limit, startKey)];
             events := events w; finished := finished w |}.

(** [Array.prototype.forEach]. *)
Fixpoint forEach {S A} (xs : list A) (f : A -> M S unit) : M S unit :=
  match xs with
  | [] => ret tt
  | x :: xs' => f x ;;; forEach xs' f
  end.

Definition newline : string := String "010"%char EmptyString.

(** The responses of the service to the scan requests of one table. *)
Record ScanOutput := {
  Items : list tree;
  LastEvaluatedKey : option (list (string * tree))
}.

Definition ScanResult : Type := Err + ScanOutput.

(** [_streamItems]: one request per call; the recursion follows the
    responses, and a request the service has not answered leaves the
    callback uncalled. *)
Fixpoint _streamItems (responses : list ScanResult) (tableName : string)
    (startKey : option (list (string * tree))) (limit : Z)
    (itemsReceived : list val -> M World unit)
    (callback : option Err -> M World unit) : M World unit :=
  ddb_scan_request tableName limit startKey ;;;
  match responses with
  | [] => ret tt
  | inl err :: _ => callback (Some err)
  | inr data :: responses' =>
      items <- on_heap (load_all (Items data)) ;;
      (if Nat.ltb 0 (length items) then itemsReceived items else ret tt) ;;;
      match LastEvaluatedKey data with
      | None => callback None
      | Some lastKey =>
          if Nat.eqb (length lastKey) 0 then callback None
          else _streamItems responses' tableName (Some lastKey) limit itemsReceived callback
      end
  end.

(** [_copyTable]: the answer to [describeTable] gives the limit. *)
Definition _copyTable (self : DynamoBackup) (describeTable : Err + float)
    (responses : list ScanResult) (tableName : string)
    (itemsReceived : list val -> M World unit)
    (callback : option Err -> M World unit) : M World unit :=
  match describeTable with
  | inl err => callback (Some err)
  | inr ReadCapacityUnits =>
      let limit := sampleLimit ReadCapacityUnits (readPercentage self) in
      _streamItems responses tableName None limit itemsReceived callback
  end.

(** Lines 92 to 109 of [backupTable]: what is done with a page of items. *)
Definition itemsReceived (self : DynamoBackup) (fuel : nat) (items : list val) : M World unit :=
  forEach items (fun item =>
    (if base64Binary self then on_heap (encodeBinary item) else ret tt) ;;;
    (if saveDataPipelineFormat self
     then text <- on_heap (_formatForDataPipeline fuel item) ;; stream_append text
     else text <- on_heap (JSON.stringify fuel item) ;; stream_append text) ;;;
    stream_append newline).

(** The function [itemsReceived] hands to [forEach], by name. *)
Definition writeItem (self : DynamoBackup) (fuel : nat) (item : val) : M World unit :=
  (if base64Binary self then on_heap (encodeBinary item) else ret tt) ;;;
  (if saveDataPipelineFormat self
   then text <- on_heap (_formatForDataPipeline fuel item) ;; stream_append text
   else text <- on_heap (JSON.stringify fuel item) ;; stream_append text) ;;;
  stream_append newline.

(** The sink after a sequence of appends. *)
Definition append_all (chunks : list string) (s : ReadableStream) : ReadableStream :=
  fold_left (fun s chunk => append chunk s) chunks s.

(** A record [backupTable] can write: it has the shape of a record and fits
    the call stack; its binary payloads are [Buffer]s when they are to be
    encoded; its tags are in the table when they are to be renamed. *)
Definition writable (self : DynamoBackup) (fuel : nat) (item : tree) : Prop :=
  shape item = true /\
  (height item <= fuel)%nat /\
  (base64Binary self = true -> binary item = true) /\
  (saveDataPipelineFormat self = true -> tags item ⊆ type_tags).

(** Lines 110 to 118 of [backupTable]: the end of the scan. *)
Definition scanFinished (tableName : string) (err : option Err) : M World unit :=
  stream_end ;;;
  (match err with
   | Some e => self_emit (error tableName e)
   | None => ret tt
   end) ;;;
  fun w =>
    Ok tt {| heap_of := heap_of w; stream := stream w; appended := appended w;
             requests := requests w; events := events w; finished := finished w ++ [err] |}.

(** A response after which [_streamItems] sends another request: it carries
    a [LastEvaluatedKey], and the key has at least one attribute. *)
Definition continues (data : ScanOutput) : bool :=
  match LastEvaluatedKey data with
  | Some lastKey => negb (Nat.eqb (length lastKey) 0)
  | None => false
  end.

(** The scan side of [backupTable]: lines 90 to 119, on a new stream. *)
Definition backupTable_scan (self : DynamoBackup) (fuel : nat) (tableName : string)
    (describeTable : Err + float) (responses : list ScanResult) : M World unit :=
  _copyTable self describeTable responses tableName
    (itemsReceived self fuel) (scanFinished tableName).

Definition new_World : World :=
  {| heap_of := []; stream := new_ReadableStream None; appended := [];
     requests := []; events := []; finished := [] |}.

(** The line [backupTable] writes for a record: the JSON text of the record,
    after the base64 step and the renaming when they are enabled. *)
Definition text_of (t : tree) : string := default EmptyString (stringify_tree t).

Definition line (self : DynamoBackup) (item : tree) : string :=
  let item := if base64Binary self then encoded item else item in
  text_of (if saveDataPipelineFormat self then renamed item else item).

(** What [backupTable] appends for a list of records. *)
Definition lines (self : DynamoBackup) (items : list tree) : list string :=
  flat_map (fun item => [line self item; newline]) items.

(* ====================================================================== *)
(** * Part II: lemmas and theorems *)
(* ====================================================================== *)

(** ** ThroughputSampler *)

Lemma wrap32_small z : - 2 ^ 31 <= z < 2 ^ 31 -> Number.wrap32 z = z.
Proof.
  intros Hz. unfold Number.wrap32.
  destruct (Z_lt_le_dec z 0) as [Hneg | Hpos].
  - replace (z mod 2 ^ 32) with (z + 2 ^ 32).
    + destruct (Z.ltb_spec (z + 2 ^ 32) (2 ^ 31)); lia.
    + apply Z.mod_unique with (q := -1); lia.
  - rewrite Z.mod_small by lia.
    destruct (Z.ltb_spec z (2 ^ 31)); lia.
Qed.

Lemma shiftl_neg_le m e : Z.shiftl (Z.neg m) e <= - Z.shiftl (Z.pos m) e <= 0.
Proof.
  destruct (Z_lt_le_dec e 0) as [Hneg | Hpos].
  - rewrite !Z.shiftl_div_pow2 by lia.
    assert (Hp : 0 < 2 ^ (- e)) by (apply Z.pow_pos_nonneg; lia).
    pose proof (Z.div_pos (Z.pos m) (2 ^ (- e)) ltac:(lia) Hp) as Hq.
    split; [| lia].
    assert (Hle : - (Z.pos m / 2 ^ (- e)) * 2 ^ (- e) >= Z.neg m).
    { pose proof (Z.mul_div_le (Z.pos m) (2 ^ (- e)) Hp). lia. }
    apply Z.lt_succ_r. apply Z.div_lt_upper_bound; [lia |].
    nia.
  - rewrite !Z.shiftl_mul_pow2 by lia.
    assert (Hp : 0 < 2 ^ e) by (apply Z.pow_pos_nonneg; lia).
    nia.
Qed.

Lemma shiftl_pos_nonneg m e : 0 <= Z.shiftl (Z.pos m) e.
Proof. apply Z.shiftl_nonneg. lia. Qed.

(** C4 (as stated) fails once the product reaches 2^31: [| 0] keeps the low
    32 bits, the floor does not. *)
Lemma sampleLimit_wraps :
  sampleLimit 2147483648 1 = 1 /\
  Number.floor (2147483648 * 1)%float = Some 2147483648 /\
  sampleLimit 2147483648 1 <> Z.max 2147483648 1.
Proof. vm_compute. repeat split; discriminate. Qed.

(** C4 (amended): whenever the floor [p] of the product lies in the signed
    32-bit range, the limit is [max p 1]; the limit is at least 1 for every
    capacity and fraction; capacity 3 gives 1 and capacity 1000 gives 250 at
    the fraction 0.25. *)
Theorem sampleLimit_spec :
  (forall capacity fraction p,
      Number.floor (capacity * fraction)%float = Some p ->
      - 2 ^ 31 <= p < 2 ^ 31 ->
      sampleLimit capacity fraction = Z.max p 1) /\
  (forall capacity fraction, 1 <= sampleLimit capacity fraction) /\
  sampleLimit 3 0.25 = 1 /\
  sampleLimit 1000 0.25 = 250.
Proof.
  split; [| split; [| split; reflexivity]].
  - intros capacity fraction p Hfloor Hrange.
    unfold sampleLimit, Number.bitor0, Number.ToInt32, Number.floor in *.
    rewrite Z.lor_0_r.
    destruct (Prim2SF (capacity * fraction)) as [s | s | | s m e]; try discriminate.
    + injection Hfloor as <-. reflexivity.
    + injection Hfloor as <-. unfold Number.truncate.
      destruct s.
      * pose proof (shiftl_neg_le m e) as [Hlo Hhi].
        rewrite wrap32_small by lia. lia.
      * rewrite wrap32_small by lia. reflexivity.
  - intros capacity fraction. unfold sampleLimit. lia.
Qed.

Lemma sampleLimit_spec_witness :
  Number.floor (40000 * 0.25)%float = Some 10000 /\
  sampleLimit 40000 0.25 = Z.max 10000 1.
Proof.
  split; [reflexivity |].
  apply (proj1 sampleLimit_spec 40000%float 0.25%float 10000);
    [reflexivity | lia].
Defined.

(** ** TableEnumerator *)

Section Enumerator.

Implicit Types (pages : list ListTablesOutput) (rest : list ListTablesResult).

Lemma _fetchTables_requests_first responses lastTable tables :
  exists requests,
    fst (_fetchTables responses lastTable tables) =
    {| ExclusiveStartTableName := if truthy_string lastTable then lastTable else None |}
      :: requests.
Proof.
  destruct responses as [| [err | data] responses']; simpl; eauto.
  destruct (truthy_string (LastEvaluatedTableName data)); eauto.
  destruct (_fetchTables responses' _ _); simpl; eauto.
Qed.

Lemma _fetchTables_pages pages last rest lastTable tables :
  Forall has_marker pages ->
  ~ has_marker last ->
  _fetchTables (map inr pages ++ inr last :: rest) lastTable tables =
  ({| ExclusiveStartTableName := if truthy_string lastTable then lastTable else None |}
     :: map next_request pages,
   Some (None, Some (tables ++ concat (map TableNames pages) ++ TableNames last))).
Proof.
  intros Hpages Hlast. revert lastTable tables.
  induction Hpages as [| page pages Hpage _ IH]; intros lastTable tables; simpl.
  - apply not_true_is_false in Hlast. rewrite Hlast. reflexivity.
  - rewrite Hpage, IH, Hpage. unfold next_request.
    rewrite <- !app_assoc. reflexivity.
Qed.

Lemma _fetchTables_error pages err rest lastTable tables :
  Forall has_marker pages ->
  _fetchTables (map inr pages ++ inl err :: rest) lastTable tables =
  ({| ExclusiveStartTableName := if truthy_string lastTable then lastTable else None |}
     :: map next_request pages,
   Some (Some err, None)).
Proof.
  intros Hpages. revert lastTable tables.
  induction Hpages as [| page pages Hpage _ IH]; intros lastTable tables; simpl.
  - reflexivity.
  - rewrite Hpage, IH, Hpage. reflexivity.
Qed.

(** C5: the pages are read up to the first one without a marker, each
    request after the first carries the marker of the page before it, and
    the callback receives the concatenation of the names of these pages, in
    order and with repetitions kept; a failed request ends the enumeration
    with [callback(err, null)].  (A marker is present when it is truthy: an
    empty string counts as none.) *)
Theorem listTables_enumerates :
  (forall pages last rest,
      Forall has_marker pages -> ~ has_marker last ->
      listTables (map inr pages ++ inr last :: rest) =
      ({| ExclusiveStartTableName := None |} :: map next_request pages,
       Some (None, Some (concat (map TableNames (pages ++ [last])))))) /\
  (forall pages err rest,
      Forall has_marker pages ->
      listTables (map inr pages ++ inl err :: rest) =
      ({| ExclusiveStartTableName := None |} :: map next_request pages,
       Some (Some err, None))) /\
  listTables
    [inr {| TableNames := ["A"; "B"]; LastEvaluatedTableName := Some "B" |};
     inr {| TableNames := ["C"]; LastEvaluatedTableName := None |}] =
  ([{| ExclusiveStartTableName := None |}; {| ExclusiveStartTableName := Some "B" |}],
   Some (None, Some ["A"; "B"; "C"])).
Proof.
  split; [| split; [| reflexivity]].
  - intros pages last rest Hpages Hlast. unfold listTables.
    rewrite _fetchTables_pages by assumption. simpl.
    rewrite map_app, concat_app. simpl. rewrite app_nil_r. reflexivity.
  - intros pages err rest Hpages. unfold listTables.
    rewrite _fetchTables_error by assumption. reflexivity.
Qed.

Lemma listTables_enumerates_witness :
  listTables
    (map inr [{| TableNames := ["users"; "users"]; LastEvaluatedTableName := Some "users" |}]
       ++ inr {| TableNames := ["orders"]; LastEvaluatedTableName := None |}
       :: [inl "unused"%string]) =
  ([{| ExclusiveStartTableName := None |}; {| ExclusiveStartTableName := Some "users" |}],
   Some (None, Some ["users"; "users"; "orders"])).
Proof.
  apply (proj1 listTables_enumerates
           [{| TableNames := ["users"; "users"]; LastEvaluatedTableName := Some "users" |}]
           {| TableNames := ["orders"]; LastEvaluatedTableName := None |}
           [inl "unused"%string]).
  - repeat constructor.
  - unfold has_marker. simpl. discriminate.
Defined.

End Enumerator.

(** ** Table selection *)

Section Selection.

Implicit Types (a b seen tables : list string) (t : string).

Lemma elem_of_intersection_from seen a b t :
  t ∈ intersection_from seen a b ↔ t ∈ a ∧ (t ∉ seen) ∧ t ∈ b.
Proof.
  revert seen. induction a as [| x a IH]; intros seen; simpl.
  - rewrite elem_of_nil. tauto.
  - destruct (bool_decide (x ∉ seen) && bool_decide (x ∈ b)) eqn:Hx.
    + apply andb_true_iff in Hx as [Hseen Hb].
      apply bool_decide_eq_true in Hseen, Hb.
      rewrite !elem_of_cons, IH, not_elem_of_cons.
      split.
      * intros [-> | (Ha & [Hne Hs] & Hb')]; tauto.
      * intros ([-> | Ha] & Hs & Hb'); [tauto |].
        destruct (decide (t = x)) as [-> | Hne]; tauto.
    + rewrite IH, elem_of_cons.
      split; [tauto |].
      intros ([-> | Ha] & Hs & Hb'); [| tauto].
      apply andb_false_iff in Hx as [Hx | Hx];
        apply bool_decide_eq_false in Hx; tauto.
Qed.

Lemma NoDup_intersection_from seen a b : NoDup (intersection_from seen a b).
Proof.
  revert seen. induction a as [| x a IH]; intros seen; simpl.
  - constructor.
  - destruct (bool_decide (x ∉ seen) && bool_decide (x ∈ b)); [| apply IH].
    constructor; [| apply IH].
    rewrite elem_of_intersection_from, not_elem_of_cons. tauto.
Qed.

Lemma elem_of_selectTables self tables t :
  t ∈ selectTables self tables ↔
  t ∈ tables ∧ (t ∉ excludedTables self) ∧ t ∈ default tables (includedTables self).
Proof.
  unfold selectTables, _intersection, _difference.
  rewrite elem_of_intersection_from, list_elem_of_difference, elem_of_nil. tauto.
Qed.

Lemma started_emit e r :
  started (emit e r) = started r ++ match e with start_backup t => [t] | _ => [] end.
Proof.
  unfold started, emit. simpl. rewrite omap_app. destruct e; reflexivity.
Qed.

Lemma started_callback_once err r : started (callback_once err r) = started r.
Proof. unfold callback_once. destruct (result r); reflexivity. Qed.

Lemma started_done err r : started (done err r) = started r.
Proof.
  unfold done. destruct err; simpl.
  - rewrite started_callback_once. reflexivity.
  - destruct (Nat.eqb _ _); [rewrite started_callback_once |]; reflexivity.
Qed.

Lemma started_handle self c r : started (handle self c r) = started r.
Proof.
  destruct c as [table [e |] | table [e |]]; unfold handle;
    try destruct (stopOnFailure self);
    rewrite ?started_done, ?started_emit, ?app_nil_r; reflexivity.
Qed.

Lemma started_completions self completions r :
  started (fold_left (fun r c => handle self c r) completions r) = started r.
Proof.
  revert r. induction completions as [| c completions IH]; intros r; simpl.
  - reflexivity.
  - rewrite IH. apply started_handle.
Qed.

Lemma omap_start_backup tables :
  omap (fun e => match e with start_backup t => Some t | _ => None end)
       (map start_backup tables) = tables.
Proof.
  induction tables as [| t tables IH]; [reflexivity |].
  cbn [map]. change (omap ?f (?x :: ?l)) with (from_option (fun y => y :: omap f l) (omap f l) (f x)).
  cbn [from_option]. f_equal. exact IH.
Qed.

Lemma started_async_each_start tables r :
  started (async_each_start tables r) = started r ++ tables.
Proof.
  unfold async_each_start.
  destruct (Nat.eqb _ _); rewrite ?started_callback_once;
    unfold started; cbn [emitted]; rewrite omap_app, omap_start_backup; reflexivity.
Qed.

(** C6: once the listing has delivered the names of all tables, the backups
    started are those of [selectTables], each table once, and as a set they
    are (all tables minus the excluded ones) intersected with the included
    ones, which default to all tables; an excluded table is never started,
    included or not. *)
Theorem backupAllTables_selection self responses requests allTables completions :
  listTables responses = (requests, Some (None, Some allTables)) ->
  let r := backupAllTables self responses completions in
  started r = selectTables self allTables /\
  NoDup (started r) /\
  list_to_set (started r) =@{gset string}
    (list_to_set allTables ∖ list_to_set (excludedTables self))
      ∩ list_to_set (default allTables (includedTables self)) /\
  (forall t, t ∈ excludedTables self -> t ∉ started r).
Proof.
  intros Hlist r.
  assert (Hstarted : started r = selectTables self allTables).
  { subst r. unfold backupAllTables. rewrite Hlist. simpl.
    rewrite started_completions, started_async_each_start. reflexivity. }
  rewrite Hstarted. split; [reflexivity |]. split; [| split].
  - apply NoDup_intersection_from.
  - apply set_eq. intros t.
    rewrite elem_of_intersection, elem_of_difference, !elem_of_list_to_set.
    rewrite elem_of_selectTables. tauto.
  - intros t Hexcl. rewrite elem_of_selectTables. tauto.
Qed.

Lemma backupAllTables_selection_witness :
  let self := {| excludedTables := ["b"; "d"]; includedTables := Some ["a"; "b"; "z"];
                 readPercentage := 0.25; stopOnFailure := false;
                 base64Binary := false; saveDataPipelineFormat := false |} in
  let responses := [inr {| TableNames := ["a"; "b"; "c"]; LastEvaluatedTableName := None |}] in
  started (backupAllTables self responses []) = ["a"].
Proof.
  intros self responses.
  destruct (backupAllTables_selection self responses
              [{| ExclusiveStartTableName := None |}] ["a"; "b"; "c"] [] eq_refl)
    as (Hsel & _).
  rewrite Hsel. reflexivity.
Defined.

End Selection.

(** ** StreamSink *)

Section Sink.

Implicit Types (s : ReadableStream) (a b : string).

Lemma buffered_app s c :
  sum_list_with String.length (buffer s ++ [c]) = (buffered s + String.length c)%nat.
Proof. unfold buffered. rewrite sum_list_with_app. simpl. lia. Qed.

(** While the buffer is below the high-water mark, [append] hands its chunk
    to the base class at once and nothing stays pending. *)
Lemma append_below s a :
  wants_data s = true -> a <> ""%string ->
  append a s =
  {| _data := ""; buffer := buffer s ++ [a]; highWaterMark := highWaterMark s; ended := ended s |}.
Proof.
  intros Hwants Ha. unfold append, read0.
  change (wants_data _) with (wants_data s). rewrite Hwants.
  unfold wants_data in Hwants. apply andb_true_iff in Hwants as [Hended _].
  apply negb_true_iff in Hended.
  unfold _read, push. simpl. rewrite Hended. simpl.
  apply String.eqb_neq in Ha. rewrite Ha. reflexivity.
Qed.

(** Once the buffer has reached the high-water mark, [append] only replaces
    the pending chunk. *)
Lemma append_full s a :
  wants_data s = false ->
  append a s =
  {| _data := a; buffer := buffer s; highWaterMark := highWaterMark s; ended := ended s |}.
Proof.
  intros Hwants. unfold append, read0.
  change (wants_data _) with (wants_data s). rewrite Hwants. reflexivity.
Qed.

(** Two appends on a full buffer: the consumer is handed what was buffered
    and the second chunk; the first chunk is in no field of the stream. *)
Lemma append_append_full s a b :
  ended s = false -> wants_data s = false -> b <> ""%string ->
  append b (append a s) =
    {| _data := b; buffer := buffer s; highWaterMark := highWaterMark s; ended := false |} /\
  fst (consumer_read (append b (append a s))) = buffer s ++ [b].
Proof.
  intros Hended Hwants Hb.
  rewrite (append_full s a Hwants).
  rewrite append_full by exact Hwants.
  simpl. rewrite Hended. split; [reflexivity |].
  unfold consumer_read, _read, push. simpl.
  apply String.eqb_neq in Hb. rewrite Hb. reflexivity.
Qed.

(** Two appends below the high-water mark are both delivered, in order. *)
Lemma append_append_below s a b :
  wants_data s = true -> a <> ""%string -> b <> ""%string ->
  (buffered s + String.length a < highWaterMark s)%nat ->
  fst (consumer_read (append b (append a s))) = buffer s ++ [a; b].
Proof.
  intros Hwants Ha Hb Hroom.
  rewrite (append_below s a Hwants Ha).
  assert (Hended : ended s = false).
  { unfold wants_data in Hwants. apply andb_true_iff in Hwants as [H _].
    apply negb_true_iff in H. exact H. }
  rewrite append_below; [| | exact Hb].
  - unfold consumer_read. simpl. rewrite Hended. simpl.
    rewrite <- app_assoc. reflexivity.
  - unfold wants_data, buffered. simpl. rewrite Hended, buffered_app. simpl.
    apply orb_true_iff. right. apply Nat.ltb_lt. exact Hroom.
Qed.

(** C1 at a concrete stream: [new ReadableStream()], one chunk of 16384
    characters appended, then [append("a")] and [append("b")] with no read in
    between.  The second append replaces the pending ["a"]: the consumer's
    next read returns the large chunk and ["b"], and ["a"] is neither
    delivered nor left in the stream. *)
Theorem append_drops_pending_chunk :
  let s := append (chunk_of (16 * 1024)) (new_ReadableStream None) in
  let s' := append "b" (append "a" s) in
  _data (append "a" s) = "a"%string /\
  fst (consumer_read s') = [chunk_of (16 * 1024); "b"%string] /\
  _data (snd (consumer_read s')) = ""%string /\
  buffer (snd (consumer_read s')) = [].
Proof. vm_compute. repeat split. Qed.

End Sink.

(** ** The layout of loaded documents *)

Section Layout.

Implicit Types (t : tree) (ts : list tree) (n : nat) (pre post : heap).

Lemma objects_all_nil n : objects_all [] n = [].
Proof. reflexivity. Qed.

Lemma values_all_nil n : values_all [] n = [].
Proof. reflexivity. Qed.

Lemma objects_all_cons t ts n :
  objects_all (t :: ts) n =
  objects_of t n ++ objects_all ts (n + length (objects_of t n))%nat.
Proof.
  unfold objects_all, objects_of. simpl.
  destruct (img t n) as [objs v]. simpl.
  destruct (img_all img ts (n + length objs)%nat) as [objs' vs]. reflexivity.
Qed.

Lemma values_all_cons t ts n :
  values_all (t :: ts) n =
  value_of t n :: values_all ts (n + length (objects_of t n))%nat.
Proof.
  unfold values_all, value_of, objects_of. simpl.
  destruct (img t n) as [objs v]. simpl.
  destruct (img_all img ts (n + length objs)%nat) as [objs' vs]. reflexivity.
Qed.

Lemma length_values_all ts n : length (values_all ts n) = length ts.
Proof.
  revert n. induction ts as [| t ts IH]; intros n; [reflexivity |].
  rewrite values_all_cons. simpl. rewrite IH. reflexivity.
Qed.

Lemma img_all_props (props : list (string * tree)) n :
  img_all (img_prop img) props n =
  (objects_all (map snd props) n, zip (map fst props) (values_all (map snd props) n)).
Proof.
  revert n. induction props as [| [k t] props IH]; intros n; [reflexivity |].
  cbn [map]. rewrite objects_all_cons, values_all_cons.
  cbn [img_all]. unfold img_prop at 1. cbn [fst snd]. unfold objects_of, value_of.
  destruct (img t n) as [objs v]. cbn [fst snd].
  rewrite IH. reflexivity.
Qed.

Lemma objects_of_arr ts n :
  objects_of (TArr ts) n = objects_all ts n ++ [Arr (values_all ts n)].
Proof.
  unfold objects_of, objects_all, values_all. cbn [img].
  destruct (img_all img ts n). reflexivity.
Qed.

Lemma value_of_arr ts n :
  value_of (TArr ts) n = VRef (n + length (objects_all ts n)).
Proof.
  unfold value_of, objects_all. cbn [img].
  destruct (img_all img ts n). reflexivity.
Qed.

Lemma objects_of_obj (props : list (string * tree)) n :
  objects_of (TObj props) n =
  objects_all (map snd props) n
    ++ [Obj (zip (map fst props) (values_all (map snd props) n))].
Proof. unfold objects_of. cbn [img]. rewrite img_all_props. reflexivity. Qed.

Lemma value_of_obj (props : list (string * tree)) n :
  value_of (TObj props) n = VRef (n + length (objects_all (map snd props) n)).
Proof. unfold value_of. cbn [img]. rewrite img_all_props. reflexivity. Qed.

(** No loaded value is a number. *)
Lemma value_of_not_num t n z : value_of t n <> VNum z.
Proof.
  destruct t; try discriminate.
  - rewrite value_of_arr. discriminate.
  - rewrite value_of_obj. discriminate.
Qed.

(** The object at the end of a segment. *)
Lemma lookup_segment_last pre (objs : list object) (o : object) post :
  (pre ++ (objs ++ [o]) ++ post) !! (length pre + length objs)%nat = Some o.
Proof.
  rewrite <- !app_assoc, app_assoc.
  rewrite lookup_app_r by (rewrite length_app; lia).
  rewrite length_app, Nat.sub_diag. reflexivity.
Qed.

Lemma insert_segment_last pre (objs : list object) (o o' : object) post :
  <[(length pre + length objs)%nat := o']> (pre ++ (objs ++ [o]) ++ post) =
  pre ++ (objs ++ [o']) ++ post.
Proof.
  rewrite <- !app_assoc, !app_assoc.
  rewrite <- (app_assoc _ [o] post), <- (app_assoc _ [o'] post).
  replace (length pre + length objs)%nat with (length (pre ++ objs) + 0)%nat
    by (rewrite length_app; lia).
  rewrite insert_app_r. reflexivity.
Qed.

End Layout.

(** ** Reading and writing properties, visiting children *)

Section HeapSteps.

Implicit Types (t : tree) (ts : list tree) (n : nat) (h pre post : heap).

Lemma get_prop_ref h l o k :
  h !! l = Some o -> get_prop (VRef l) k h = Ok (object_get o k) h.
Proof. intros Hl. unfold get_prop. rewrite Hl. reflexivity. Qed.

Lemma set_prop_new h l props name v :
  h !! l = Some (Obj props) ->
  prop_has name props = false ->
  index_of_string name = None ->
  set_prop (VRef l) (KStr name) v h = Ok tt (<[l := Obj (props ++ [(name, v)])]> h).
Proof.
  intros Hl Hhas Hidx. unfold set_prop. rewrite Hl. cbn [key_string].
  rewrite Hhas, Hidx. reflexivity.
Qed.

Lemma set_prop_old h l props name v :
  h !! l = Some (Obj props) ->
  prop_has name props = true ->
  set_prop (VRef l) (KStr name) v h = Ok tt (<[l := Obj (prop_replace name v props)]> h).
Proof.
  intros Hl Hhas. unfold set_prop. rewrite Hl. cbn [key_string].
  rewrite Hhas. reflexivity.
Qed.

Lemma each_obj h l props f :
  h !! l = Some (Obj props) ->
  Lodash.array_like_length props = None ->
  Lodash.each (VRef l) f h =
  Lodash.for_each (VRef l) (map (fun p => KStr (fst p)) props) f h.
Proof.
  intros Hl Hlike. unfold Lodash.each, bind, Lodash.each_keys.
  rewrite Hl, Hlike. reflexivity.
Qed.

Lemma each_arr h l elems f :
  h !! l = Some (Arr elems) ->
  Lodash.each (VRef l) f h =
  Lodash.for_each (VRef l) (Lodash.indices (length elems)) f h.
Proof.
  intros Hl. unfold Lodash.each, bind, Lodash.each_keys.
  rewrite Hl. reflexivity.
Qed.

Lemma for_each_cons coll k keys f h :
  Lodash.for_each coll (k :: keys) f h =
  match get_prop coll k h with
  | Ok v h1 =>
      match f v k h1 with
      | Ok _ h2 => Lodash.for_each coll keys f h2
      | Throw e h2 => Throw e h2
      | OutOfFuel => OutOfFuel
      | OutOfModel => OutOfModel
      end
  | Throw e h1 => Throw e h1
  | OutOfFuel => OutOfFuel
  | OutOfModel => OutOfModel
  end.
Proof.
  cbn [Lodash.for_each]. unfold bind.
  destruct (get_prop coll k h); reflexivity.
Qed.

(** The loop of [_.each] over the children of a loaded object or array:
    each child in turn is replaced by what the iteratee makes of it, until
    one throws.  [read] is what the collection holds under each key, in any
    heap that differs from the present one below the address [hi] only. *)
Lemma for_each_children coll iteratee g post hi read keys ts pre :
  (forall A k, length A = hi -> get_prop coll k (A ++ post) = Ok (read k) (A ++ post)) ->
  Forall2 (carries_out iteratee g) keys ts ->
  Forall2 (fun k v => read k = v) keys (values_all ts (length pre)) ->
  (length pre + length (objects_all ts (length pre)))%nat = hi ->
  match map_result g ts with
  | inr ts' =>
      Lodash.for_each coll keys iteratee (pre ++ objects_all ts (length pre) ++ post) =
        Ok tt (pre ++ objects_all ts' (length pre) ++ post) /\
      values_all ts' (length pre) = values_all ts (length pre) /\
      length (objects_all ts' (length pre)) = length (objects_all ts (length pre))
  | inl e =>
      exists h', Lodash.for_each coll keys iteratee
                   (pre ++ objects_all ts (length pre) ++ post) = Throw e h'
  end.
Proof.
  intros Hread Hsteps. revert pre.
  induction Hsteps as [| k t keys ts Hstep _ IH]; intros pre Hvals Hhi.
  - cbn [map_result]. repeat split; reflexivity.
  - rewrite values_all_cons in Hvals. apply Forall2_cons in Hvals as [Hk Hvals].
    rewrite objects_all_cons in Hhi.
    rewrite for_each_cons, objects_all_cons.
    rewrite app_assoc.
    rewrite Hread by (rewrite !length_app in *; lia).
    rewrite <- app_assoc, Hk.
    specialize (Hstep pre (objects_all ts (length pre + length (objects_of t (length pre))) ++ post)).
    cbn zeta in Hstep. rewrite <- app_assoc.
    cbn [map_result]. destruct (g t) as [e | t'].
    + destruct Hstep as [h' ->]. eauto.
    + destruct Hstep as [Hplace ->].
      destruct (Hplace (length pre)) as [Hlen Hval].
      specialize (IH (pre ++ objects_of t' (length pre))).
      rewrite length_app, Hlen in IH.
      specialize (IH Hvals ltac:(rewrite length_app in Hhi; lia)).
      rewrite <- app_assoc in IH.
      destruct (map_result g ts) as [e | ts'].
      * exact IH.
      * destruct IH as (-> & Hvs & Hlens).
        rewrite !objects_all_cons, !values_all_cons, Hlen, Hval, Hvs.
        split; [| split].
        -- rewrite <- !app_assoc. reflexivity.
        -- reflexivity.
        -- rewrite !length_app, Hlens, Hlen. reflexivity.
Qed.

End HeapSteps.

(** ** Induction on documents *)

Lemma tree_induction (P : tree -> Prop) :
  P TUndefined -> P TNull -> (forall b, P (TBool b)) -> (forall s, P (TStr s)) ->
  (forall bytes, P (TBuf bytes)) ->
  (forall elems, Forall P elems -> P (TArr elems)) ->
  (forall props, Forall (fun p => P (snd p)) props -> P (TObj props)) ->
  forall t, P t.
Proof.
  intros HU HN HB HS HBuf HArr HObj.
  fix IH 1. intros [| | b | s | bytes | elems | props].
  - exact HU.
  - exact HN.
  - apply HB.
  - apply HS.
  - apply HBuf.
  - apply HArr. induction elems as [| t elems IHelems]; constructor.
    + apply IH.
    + exact IHelems.
  - apply HObj. induction props as [| [k t] props IHprops]; constructor.
    + apply IH.
    + exact IHprops.
Qed.

Section Heights.

Implicit Types (t : tree) (ts : list tree).

Lemma foldr_max_le (l : list nat) (f : nat) :
  (foldr Nat.max 0 l <= f)%nat <-> Forall (fun x => (x <= f)%nat) l.
Proof.
  induction l as [| x l IH]; simpl.
  - split; [constructor | lia].
  - rewrite Forall_cons, <- IH. lia.
Qed.

Lemma height_arr ts f :
  (height (TArr ts) <= S f)%nat <-> Forall (fun t => (height t <= f)%nat) ts.
Proof.
  cbn [height]. rewrite <- Nat.succ_le_mono, foldr_max_le, Forall_map. reflexivity.
Qed.

Lemma height_obj (props : list (string * tree)) f :
  (height (TObj props) <= S f)%nat <->
  Forall (fun t => (height t <= f)%nat) (map snd props).
Proof.
  cbn [height]. rewrite <- Nat.succ_le_mono, foldr_max_le, !Forall_map. reflexivity.
Qed.

Lemma height_arr_pos ts : (1 <= height (TArr ts))%nat.
Proof. cbn [height]. lia. Qed.

Lemma height_obj_pos (props : list (string * tree)) : (1 <= height (TObj props))%nat.
Proof. cbn [height]. lia. Qed.

End Heights.

(** ** [JSON.stringify] on a loaded document *)

Section Serialize.

Implicit Types (t : tree) (ts : list tree) (pre post : heap).

Lemma serialize_all fuel (H : heap) :
  (forall t pre post,
      (height t <= fuel)%nat -> H = pre ++ objects_of t (length pre) ++ post ->
      JSON.serialize fuel H (value_of t (length pre)) = Some (stringify_tree t)) ->
  forall ts pre post,
    Forall (fun t => (height t <= fuel)%nat) ts ->
    H = pre ++ objects_all ts (length pre) ++ post ->
    mapM (JSON.serialize fuel H) (values_all ts (length pre)) = Some (map stringify_tree ts).
Proof.
  intros Hone ts. induction ts as [| t ts IH]; intros pre post Hheights HH.
  - reflexivity.
  - apply Forall_cons in Hheights as [Ht Hts].
    rewrite values_all_cons. rewrite objects_all_cons in HH.
    cbn [mapM].
    rewrite (Hone t pre (objects_all ts (length pre + length (objects_of t (length pre))) ++ post) Ht)
      by (rewrite HH, <- app_assoc; reflexivity).
    specialize (IH (pre ++ objects_of t (length pre)) post Hts).
    rewrite length_app in IH.
    rewrite IH by (rewrite HH, <- !app_assoc; reflexivity).
    reflexivity.
Qed.

Lemma serialize_members fuel (H : heap) (names : list string) (vs : list val)
    (texts : list (option string)) :
  mapM (JSON.serialize fuel H) vs = Some texts ->
  mapM (fun p => JSON.member (fst p) <$> JSON.serialize fuel H (snd p)) (zip names vs) =
  Some (zip_with JSON.member names texts).
Proof.
  revert vs texts. induction names as [| name names IH]; intros vs texts Hvs.
  - reflexivity.
  - destruct vs as [| v vs].
    + injection Hvs as <-. reflexivity.
    + cbn [mapM] in Hvs. destruct (JSON.serialize fuel H v) as [text |] eqn:Hv; [| discriminate].
      cbn in Hvs. destruct (mapM (JSON.serialize fuel H) vs) as [texts' |] eqn:Hvs'; [| discriminate].
      injection Hvs as <-. cbn [zip zip_with mapM fst snd].
      rewrite Hv. cbn. rewrite (IH vs texts' Hvs'). reflexivity.
Qed.

Lemma omap_members (props : list (string * tree)) :
  omap id (zip_with JSON.member (map fst props) (map stringify_tree (map snd props))) =
  omap (fun p => JSON.member (fst p) (stringify_tree (snd p))) props.
Proof.
  induction props as [| [k t] props IH]; [reflexivity |].
  cbn [map zip_with fst snd]. simpl.
  destruct (JSON.member k (stringify_tree t)); [f_equal |]; exact IH.
Qed.

Lemma serialize_img fuel :
  forall t pre post,
    (height t <= fuel)%nat ->
    JSON.serialize fuel (pre ++ objects_of t (length pre) ++ post) (value_of t (length pre)) =
    Some (stringify_tree t).
Proof.
  induction fuel as [| fuel IH]; intros t pre post Hheight.
  - destruct t; try reflexivity.
    + pose proof (height_arr_pos elems). lia.
    + pose proof (height_obj_pos props). lia.
  - destruct t as [| | b | s | bytes | elems | props]; try reflexivity.
    + rewrite value_of_arr, objects_of_arr. cbn [JSON.serialize].
      rewrite lookup_segment_last.
      erewrite serialize_all with (post := [Arr _] ++ post).
      * cbn. rewrite map_map. reflexivity.
      * intros t pre' post' Ht ->. apply IH. exact Ht.
      * apply height_arr. exact Hheight.
      * rewrite <- !app_assoc. reflexivity.
    + rewrite value_of_obj, objects_of_obj. cbn [JSON.serialize].
      rewrite lookup_segment_last.
      erewrite serialize_members.
      * cbn. rewrite omap_members. reflexivity.
      * eapply serialize_all with (post := [Obj _] ++ post).
        -- intros t pre' post' Ht ->. apply IH. exact Ht.
        -- apply height_obj. exact Hheight.
        -- rewrite <- !app_assoc. reflexivity.
Qed.

Lemma stringify_img fuel t pre post :
  (height t <= fuel)%nat ->
  JSON.stringify fuel (value_of t (length pre)) (pre ++ objects_of t (length pre) ++ post) =
  match stringify_tree t with
  | Some text => Ok text (pre ++ objects_of t (length pre) ++ post)
  | None => OutOfModel
  end.
Proof.
  intros Hheight. unfold JSON.stringify. rewrite serialize_img by exact Hheight.
  reflexivity.
Qed.

End Serialize.

(** ** The table of output keys *)

Section OutputKeys.

Implicit Types (tag key : string).

Lemma output_key_In tag key : output_key tag = Some key -> In (tag, key) output_keys.
Proof.
  unfold output_key. intros Hkey.
  destruct (List.find _ output_keys) as [[tag' key'] |] eqn:Hfind; [| discriminate].
  injection Hkey as <-.
  apply find_some in Hfind as [Hin Heq]. cbn [fst] in Heq.
  apply String.eqb_eq in Heq. subst tag'. exact Hin.
Qed.

(** An output key is never the tag it replaces, nor an index. *)
Lemma output_key_fresh tag key :
  output_key tag = Some key ->
  String.eqb tag key = false /\ index_of_string key = None.
Proof.
  intros Hkey. apply output_key_In in Hkey.
  assert (Hall : Forall (fun p => String.eqb (fst p) (snd p) = false /\
                                  index_of_string (snd p) = None) output_keys)
    by (repeat constructor).
  rewrite Forall_forall in Hall. exact (Hall _ ltac:(apply list_elem_of_In; exact Hkey)).
Qed.

Lemma _getDataPipelineAttributeValueKey_spec {S} tag (s : S) :
  _getDataPipelineAttributeValueKey (KStr tag) s =
  match output_key tag with
  | Some key => Ok key s
  | None => Throw (unknown_key tag) s
  end.
Proof.
  unfold _getDataPipelineAttributeValueKey, output_key, output_keys, unknown_key.
  cbn [existsb strict_eq List.find fst snd key_string].
  rewrite !(String.eqb_sym _ tag).
  repeat match goal with
         | |- context [String.eqb tag ?x] =>
             destruct (String.eqb_spec tag x) as [-> | _]; [reflexivity |]
         end.
  reflexivity.
Qed.

Lemma strict_eq_container tag :
  strict_eq (KStr tag) "M" || strict_eq (KStr tag) "L" = is_container tag.
Proof. reflexivity. Qed.

End OutputKeys.

(** ** [format_tree], as a function *)

Section FormatTree.

Implicit Types (t : tree) (ts : list tree).

Lemma map_result_length {A B} (g : A -> Err + B) xs ys :
  map_result g xs = inr ys -> length ys = length xs.
Proof.
  revert ys. induction xs as [| x xs IH]; intros ys Hys; cbn [map_result] in Hys.
  - injection Hys as <-. reflexivity.
  - destruct (g x) as [e | y]; [discriminate |].
    destruct (map_result g xs) as [e | ys']; [discriminate |].
    injection Hys as <-. cbn [length]. rewrite (IH ys' eq_refl). reflexivity.
Qed.

Lemma map_result_attrs {A} (g : A -> Err + A) (attrs : list (string * A)) :
  map_result (fun p => match g (snd p) with
                       | inl e => inl e
                       | inr y => inr (fst p, y)
                       end) attrs =
  match map_result g (map snd attrs) with
  | inl e => inl e
  | inr ys => inr (zip (map fst attrs) ys)
  end.
Proof.
  induction attrs as [| [k x] attrs IH]; [reflexivity |].
  cbn [map map_result fst snd]. destruct (g x) as [e | y]; [reflexivity |].
  rewrite IH. destruct (map_result g (map snd attrs)); reflexivity.
Qed.

Lemma format_tree_obj (attrs : list (string * tree)) :
  format_tree (TObj attrs) =
  match map_result format_value (map snd attrs) with
  | inl e => inl e
  | inr avs => inr (TObj (zip (map fst attrs) avs))
  end.
Proof.
  change (format_tree (TObj attrs)) with
    (match map_result (fun p => match format_value (snd p) with
                                | inl e => inl e
                                | inr av' => inr (fst p, av')
                                end) attrs with
     | inl e => inl e
     | inr attrs' => inr (TObj attrs')
     end).
  rewrite map_result_attrs. destruct (map_result format_value (map snd attrs)); reflexivity.
Qed.

Lemma format_tree_arr ts :
  format_tree (TArr ts) =
  match map_result format_value ts with
  | inl e => inl e
  | inr avs => inr (TArr avs)
  end.
Proof. reflexivity. Qed.

Lemma shape_obj (attrs : list (string * tree)) :
  shape (TObj attrs) = true <->
  NoDup (map fst attrs) /\ Forall (fun av => value_shape av = true) (map snd attrs).
Proof.
  change (shape (TObj attrs)) with
    (bool_decide (NoDup (map fst attrs)) && forallb (fun p => value_shape (snd p)) attrs).
  rewrite andb_true_iff, bool_decide_eq_true, forallb_forall, Forall_map, Forall_forall.
  split; intros [Hnodup Hall]; (split; [exact Hnodup |]); intros p Hp; apply Hall.
  - apply list_elem_of_In. exact Hp.
  - apply list_elem_of_In. exact Hp.
Qed.

Lemma shape_arr ts :
  shape (TArr ts) = true <-> Forall (fun av => value_shape av = true) ts.
Proof.
  change (shape (TArr ts)) with (forallb value_shape ts).
  rewrite forallb_forall, Forall_forall.
  split; intros Hall p Hp; apply Hall; apply list_elem_of_In; exact Hp.
Qed.

Lemma zip_fst_snd {A B} (xs : list A) (ys : list B) :
  length xs = length ys -> map fst (zip xs ys) = xs /\ map snd (zip xs ys) = ys.
Proof.
  revert ys. induction xs as [| x xs IH]; intros [| y ys] Hlen; try discriminate.
  - split; reflexivity.
  - cbn [zip zip_with map fst snd]. injection Hlen as Hlen.
    destruct (IH ys Hlen) as [-> ->]. split; reflexivity.
Qed.

Lemma map_result_heights (g : tree -> Err + tree) ts ts' :
  Forall (fun t => forall t', g t = inr t' -> height t' = height t) ts ->
  map_result g ts = inr ts' ->
  map height ts' = map height ts.
Proof.
  intros Hall. revert ts'. induction Hall as [| t ts Ht _ IH]; intros ts' Hts';
    cbn [map_result] in Hts'.
  - injection Hts' as <-. reflexivity.
  - destruct (g t) as [e | t'] eqn:Hg; [discriminate |].
    destruct (map_result g ts) as [e | ts'']; [discriminate |].
    injection Hts' as <-. cbn [map]. rewrite (Ht t' eq_refl), (IH ts'' eq_refl). reflexivity.
Qed.

(** The transform keeps the nesting depth. *)
Lemma format_height t :
  (forall t', format_tree t = inr t' -> height t' = height t) /\
  (forall t', format_value t = inr t' -> height t' = height t).
Proof.
  induction t as [| | b | s | bytes | elems IH | props IH] using tree_induction;
    try (split; intros t' [= <-]; reflexivity).
  - split; [| intros t' [= <-]; reflexivity].
    intros t'. rewrite format_tree_arr.
    destruct (map_result format_value elems) as [e | avs] eqn:Havs; [discriminate |].
    intros [= <-]. cbn [height]. f_equal. f_equal.
    eapply map_result_heights; [| exact Havs].
    eapply Forall_impl; [exact IH |]. intros t [_ Ht]. exact Ht.
  - split.
    + intros t'. rewrite format_tree_obj.
      destruct (map_result format_value (map snd props)) as [e | avs] eqn:Havs; [discriminate |].
      intros [= <-]. cbn [height]. f_equal. f_equal.
      pose proof (map_result_length _ _ _ Havs) as Hlen. rewrite length_map in Hlen.
      rewrite <- !(map_map snd height).
      destruct (zip_fst_snd (map fst props) avs) as [_ ->]; [rewrite length_map; lia |].
      eapply map_result_heights; [| exact Havs].
      rewrite Forall_map. eapply Forall_impl; [exact IH |]. intros p [_ Hp]. exact Hp.
    + intros t'. unfold format_value.
      destruct props as [| [tag payload] [|]]; try (intros [= <-]; reflexivity).
      destruct (output_key tag) as [key |]; [| discriminate].
      apply Forall_cons in IH as [[IHpayload _] _]. cbn [snd] in IHpayload.
      destruct (is_container tag).
      * destruct (format_tree payload) as [e | payload']; [discriminate |].
        intros [= <-]. cbn [height map foldr snd]. rewrite (IHpayload payload' eq_refl). lia.
      * intros [= <-]. cbn [height map foldr snd]. lia.
Qed.

End FormatTree.

(** ** What the parent of loaded children holds *)

Section Parents.

Implicit Types (t : tree) (ts : list tree) (names : list string) (vs : list val).

Lemma prop_get_zip_lookup names vs i name v :
  NoDup names -> names !! i = Some name -> vs !! i = Some v ->
  prop_get name (zip names vs) = v.
Proof.
  intros Hnodup. revert vs i.
  induction Hnodup as [| name0 names Hnotin _ IH]; intros vs i Hname Hv.
  - discriminate.
  - destruct vs as [| v0 vs]; [discriminate |].
    cbn [zip zip_with prop_get]. destruct i as [| i].
    + injection Hname as ->. injection Hv as ->. rewrite String.eqb_refl. reflexivity.
    + cbn in Hname, Hv.
      destruct (String.eqb_spec name0 name) as [-> | _].
      * exfalso. apply Hnotin. eapply list_elem_of_lookup_2. exact Hname.
      * eapply IH; eassumption.
Qed.

Lemma prop_get_zip names vs :
  NoDup names -> length names = length vs ->
  Forall2 (fun k v => object_get (Obj (zip names vs)) k = v) (map KStr names) vs.
Proof.
  intros Hnodup Hlen. apply Forall2_same_length_lookup_2.
  - rewrite length_map. exact Hlen.
  - intros i k v Hk Hv. rewrite list_lookup_fmap in Hk.
    destruct (names !! i) as [name |] eqn:Hname; [| discriminate].
    injection Hk as <-. cbn [object_get key_string].
    eapply prop_get_zip_lookup; eassumption.
Qed.

Lemma elems_get vs :
  Forall2 (fun k v => object_get (Arr vs) k = v) (Lodash.indices (length vs)) vs.
Proof.
  apply Forall2_same_length_lookup_2.
  - unfold Lodash.indices. rewrite length_map, length_seq. reflexivity.
  - intros i k v Hk Hv. unfold Lodash.indices in Hk. rewrite list_lookup_fmap in Hk.
    destruct (seq 0 (length vs) !! i) as [j |] eqn:Hj; [| discriminate].
    injection Hk as <-. apply lookup_seq in Hj as [-> _].
    cbn [object_get key_index Nat.add]. rewrite Hv. reflexivity.
Qed.

Lemma values_all_not_num ts n : Forall (fun v => forall z, v <> VNum z) (values_all ts n).
Proof.
  revert n. induction ts as [| t ts IH]; intros n.
  - constructor.
  - rewrite values_all_cons. constructor; [| apply IH].
    intros z. apply value_of_not_num.
Qed.

Lemma prop_get_not_num name names vs z :
  Forall (fun v => forall z, v <> VNum z) vs ->
  prop_get name (zip names vs) <> VNum z.
Proof.
  intros Hall. revert names. induction Hall as [| v vs Hv _ IH]; intros [| name0 names];
    try discriminate.
  cbn [zip zip_with prop_get]. destruct (String.eqb name0 name); [apply Hv | apply IH].
Qed.

(** A loaded object is never array-like: its [length], if any, is no number. *)
Lemma loaded_not_array_like names ts n :
  Lodash.array_like_length (zip names (values_all ts n)) = None.
Proof.
  unfold Lodash.array_like_length.
  destruct (prop_get "length" (zip names (values_all ts n))) eqn:Hlength; try reflexivity.
  exfalso. apply (prop_get_not_num "length" names (values_all ts n) n0); [| exact Hlength].
  apply values_all_not_num.
Qed.

Lemma keys_of_zip names vs :
  length names = length vs ->
  map (fun p : string * val => KStr (fst p)) (zip names vs) = map KStr names.
Proof.
  intros Hlen. rewrite <- (map_map fst KStr).
  destruct (zip_fst_snd names vs Hlen) as [-> _]. reflexivity.
Qed.

Lemma Forall2_any_key {A} (P : key -> A -> Prop) (keys : list key) (xs : list A) :
  length keys = length xs ->
  Forall (fun x => forall k, P k x) xs ->
  Forall2 P keys xs.
Proof.
  intros Hlen Hall. revert keys Hlen.
  induction Hall as [| x xs Hx _ IH]; intros [| k keys] Hlen; try discriminate.
  - constructor.
  - constructor; [apply Hx | apply IH]. injection Hlen as Hlen. exact Hlen.
Qed.

Lemma same_place_all iteratee g keys ts ts' :
  Forall2 (carries_out iteratee g) keys ts ->
  map_result g ts = inr ts' ->
  forall m, length (objects_all ts' m) = length (objects_all ts m) /\
            values_all ts' m = values_all ts m.
Proof.
  intros Hsteps. revert ts'.
  induction Hsteps as [| k t keys ts Hstep _ IH]; intros ts' Hts' m;
    cbn [map_result] in Hts'.
  - injection Hts' as <-. split; reflexivity.
  - specialize (Hstep [] []). cbn zeta in Hstep.
    destruct (g t) as [e | t']; [discriminate |].
    destruct (map_result g ts) as [e | ts'']; [discriminate |].
    injection Hts' as <-. destruct Hstep as [Hplace _].
    destruct (Hplace m) as [Hlen Hval].
    rewrite !objects_all_cons, !values_all_cons, !length_app, Hlen, Hval.
    destruct (IH ts'' eq_refl (m + length (objects_of t m))%nat) as [-> ->].
    split; reflexivity.
Qed.

End Parents.

(** ** [_formatForDataPipeline] on a loaded record *)

Section FormatSimulation.

Implicit Types (t item av : tree) (ts : list tree) (pre post : heap).

Lemma _formatForDataPipeline_S fuel (v : val) :
  _formatForDataPipeline (S fuel) v =
  (Lodash.each v (rename_tags (_formatForDataPipeline fuel)) ;;;
   JSON.stringify (S fuel) v).
Proof. reflexivity. Qed.

(** The layout of a typed value before and after the renaming. *)
Lemma objects_of_value tag payload n :
  objects_of (TObj [(tag, payload)]) n =
  objects_of payload n ++ [Obj [(tag, value_of payload n)]].
Proof.
  rewrite objects_of_obj. cbn [map fst snd].
  rewrite objects_all_cons, values_all_cons, objects_all_nil, values_all_nil, app_nil_r.
  reflexivity.
Qed.

Lemma value_of_value tag payload n :
  value_of (TObj [(tag, payload)]) n = VRef (n + length (objects_of payload n)).
Proof.
  rewrite value_of_obj. cbn [map fst snd].
  rewrite objects_all_cons, objects_all_nil, app_nil_r. reflexivity.
Qed.

Lemma objects_of_renamed tag key payload n :
  objects_of (TObj [(tag, TUndefined); (key, payload)]) n =
  objects_of payload n ++ [Obj [(tag, VUndefined); (key, value_of payload n)]].
Proof.
  rewrite objects_of_obj. cbn [map fst snd].
  rewrite !objects_all_cons, !values_all_cons, objects_all_nil, values_all_nil, app_nil_r.
  change (objects_of TUndefined n) with (@nil object).
  cbn [length app]. rewrite Nat.add_0_r. reflexivity.
Qed.

Lemma value_of_renamed tag key payload n :
  value_of (TObj [(tag, TUndefined); (key, payload)]) n =
  VRef (n + length (objects_of payload n)).
Proof.
  rewrite value_of_obj. cbn [map fst snd].
  rewrite !objects_all_cons, objects_all_nil, app_nil_r.
  change (objects_of TUndefined n) with (@nil object).
  cbn [length app]. rewrite Nat.add_0_r. reflexivity.
Qed.

Lemma height_value tag payload : height (TObj [(tag, payload)]) = S (height payload).
Proof. cbn [height map foldr snd]. lia. Qed.

(** The outer iteratee on one typed value, step by step. *)
Lemma rename_tags_step recurse k tag (pv : val) pre (objs : list object) post :
  (forall z, pv <> VNum z) ->
  rename_tags recurse (VRef (length pre + length objs)) k
    (pre ++ (objs ++ [Obj [(tag, pv)]]) ++ post) =
  match output_key tag with
  | None => Throw (unknown_key tag) (pre ++ (objs ++ [Obj [(tag, pv)]]) ++ post)
  | Some key =>
      let h := pre ++ (objs ++ [Obj [(tag, VUndefined); (key, pv)]]) ++ post in
      if is_container tag then
        match recurse pv h with
        | Ok _ h' => Ok tt h'
        | Throw e h' => Throw e h'
        | OutOfFuel => OutOfFuel
        | OutOfModel => OutOfModel
        end
      else Ok tt h
  end.
Proof.
  intros Hpv. unfold rename_tags.
  rewrite (each_obj _ _ [(tag, pv)]); cycle 1.
  { apply lookup_segment_last. }
  { unfold Lodash.array_like_length. cbn [prop_get].
    destruct (String.eqb tag "length"); [| reflexivity].
    destruct pv; try reflexivity. exfalso. exact (Hpv n eq_refl). }
  cbn [map fst]. rewrite for_each_cons.
  rewrite (get_prop_ref _ _ (Obj [(tag, pv)])) by apply lookup_segment_last.
  cbn [object_get key_string prop_get]. rewrite String.eqb_refl.
  unfold rename_tag. unfold bind at 1.
  rewrite _getDataPipelineAttributeValueKey_spec.
  destruct (output_key tag) as [key |] eqn:Hkey; [| reflexivity].
  destruct (output_key_fresh _ _ Hkey) as [Hne Hidx].
  unfold bind at 1.
  rewrite (set_prop_new _ _ [(tag, pv)]); cycle 1.
  { apply lookup_segment_last. }
  { unfold prop_has. cbn [existsb fst]. rewrite Hne. reflexivity. }
  { exact Hidx. }
  rewrite insert_segment_last. cbn [app].
  unfold bind at 1.
  rewrite (set_prop_old _ _ [(tag, pv); (key, pv)]); cycle 1.
  { apply lookup_segment_last. }
  { unfold prop_has. cbn [existsb fst]. rewrite String.eqb_refl. reflexivity. }
  rewrite insert_segment_last. cbn [prop_replace]. rewrite String.eqb_refl.
  rewrite strict_eq_container. cbn zeta.
  destruct (is_container tag); [| reflexivity].
  unfold bind. destruct (recurse pv _); reflexivity.
Qed.

(** The outer iteratee carries out [format_value]. *)
Lemma rename_tags_carries_out fuel k av :
  (forall item, shape item = true -> (height item <= fuel)%nat -> formats fuel item) ->
  value_shape av = true ->
  (height av <= S fuel)%nat ->
  carries_out (rename_tags (_formatForDataPipeline fuel)) format_value k av.
Proof.
  intros IH Hshape Hheight pre post. cbn zeta.
  destruct av as [| | | | | | props]; try discriminate.
  destruct props as [| [tag payload] [|]]; try discriminate.
  cbn [value_shape] in Hshape. rewrite height_value in Hheight.
  unfold format_value.
  rewrite objects_of_value, value_of_value.
  rewrite rename_tags_step by (intros z; apply value_of_not_num).
  destruct (output_key tag) as [key |] eqn:Hkey; [| eexists; reflexivity].
  cbn zeta. destruct (is_container tag) eqn:Hcontainer.
  - specialize (IH payload Hshape ltac:(lia) pre
                  ([Obj [(tag, VUndefined); (key, value_of payload (length pre))]] ++ post)).
    cbn zeta in IH. rewrite <- (app_assoc (objects_of payload (length pre))).
    destruct (format_tree payload) as [e | payload'].
    + destruct IH as [h' IH]. exists h'. rewrite IH. reflexivity.
    + destruct IH as [Hplace (text & _ & IH)]. split; [| rewrite IH].
      * intros m. rewrite objects_of_renamed, value_of_renamed, objects_of_value, value_of_value.
        destruct (Hplace m) as [Hlen Hval]. rewrite !length_app, Hlen. split; reflexivity.
      * rewrite objects_of_renamed. destruct (Hplace (length pre)) as [_ ->].
        rewrite <- !app_assoc. reflexivity.
  - split.
    + intros m. rewrite objects_of_renamed, value_of_renamed, objects_of_value, value_of_value.
      rewrite !length_app. split; reflexivity.
    + rewrite objects_of_renamed. reflexivity.
Qed.

Lemma _formatForDataPipeline_arr fuel l vs (h : heap) :
  h !! l = Some (Arr vs) ->
  _formatForDataPipeline (S fuel) (VRef l) h =
  match Lodash.for_each (VRef l) (Lodash.indices (length vs))
          (rename_tags (_formatForDataPipeline fuel)) h with
  | Ok _ h' => JSON.stringify (S fuel) (VRef l) h'
  | Throw e h' => Throw e h'
  | OutOfFuel => OutOfFuel
  | OutOfModel => OutOfModel
  end.
Proof.
  intros Hl. rewrite _formatForDataPipeline_S. unfold bind at 1.
  rewrite (each_arr _ _ vs) by exact Hl. reflexivity.
Qed.

Lemma _formatForDataPipeline_obj fuel l props (h : heap) :
  h !! l = Some (Obj props) ->
  Lodash.array_like_length props = None ->
  _formatForDataPipeline (S fuel) (VRef l) h =
  match Lodash.for_each (VRef l) (map (fun p => KStr (fst p)) props)
          (rename_tags (_formatForDataPipeline fuel)) h with
  | Ok _ h' => JSON.stringify (S fuel) (VRef l) h'
  | Throw e h' => Throw e h'
  | OutOfFuel => OutOfFuel
  | OutOfModel => OutOfModel
  end.
Proof.
  intros Hl Hlike. rewrite _formatForDataPipeline_S. unfold bind at 1.
  rewrite (each_obj _ _ props) by assumption. reflexivity.
Qed.

Lemma carries_out_children fuel (keys : list JS.key) ts :
  (forall item, shape item = true -> (height item <= fuel)%nat -> formats fuel item) ->
  length keys = length ts ->
  Forall (fun av => value_shape av = true) ts ->
  Forall (fun t => (height t <= fuel)%nat) ts ->
  Forall2 (carries_out (rename_tags (_formatForDataPipeline fuel)) format_value) keys ts.
Proof.
  intros IH Hlen Hshapes Hheights. apply Forall2_any_key; [exact Hlen |].
  rewrite Forall_forall in Hshapes, Hheights. apply Forall_forall. intros av Hav k.
  apply rename_tags_carries_out; [exact IH | apply Hshapes; exact Hav |].
  specialize (Hheights av Hav). lia.
Qed.

(** [_formatForDataPipeline] carries out [format_tree] on every record of
    the right shape that the fuel covers. *)
Lemma format_sim fuel :
  forall item, shape item = true -> (height item <= fuel)%nat -> formats fuel item.
Proof.
  induction fuel as [| fuel IH]; intros item Hshape Hheight.
  - destruct item; try discriminate.
    + pose proof (height_arr_pos elems). lia.
    + pose proof (height_obj_pos props). lia.
  - intros pre post. cbn zeta.
    destruct item as [| | | | | elems | attrs]; try discriminate.
    + apply shape_arr in Hshape. pose proof (proj1 (height_arr _ _) Hheight) as Hheights.
      pose proof (format_height (TArr elems)) as [Hformat_height _].
      rewrite format_tree_arr in *. rewrite objects_of_arr, value_of_arr.
      rewrite (_formatForDataPipeline_arr _ _ (values_all elems (length pre)))
        by apply lookup_segment_last.
      pose proof (for_each_children
                    (VRef (length pre + length (objects_all elems (length pre))))
                    (rename_tags (_formatForDataPipeline fuel)) format_value
                    ([Arr (values_all elems (length pre))] ++ post)
                    (length pre + length (objects_all elems (length pre)))%nat
                    (object_get (Arr (values_all elems (length pre))))
                    (Lodash.indices (length (values_all elems (length pre)))) elems pre)
        as Hloop.
      assert (Hsteps : Forall2 (carries_out (rename_tags (_formatForDataPipeline fuel)) format_value)
                         (Lodash.indices (length (values_all elems (length pre)))) elems).
      { apply carries_out_children; try assumption.
        unfold Lodash.indices. rewrite length_map, length_seq, length_values_all. reflexivity. }
      specialize (Hloop ltac:(intros A k HA; apply get_prop_ref, list_lookup_middle; congruence)
                        Hsteps (elems_get _) eq_refl).
      rewrite <- (app_assoc (objects_all elems (length pre))).
      destruct (map_result format_value elems) as [e | avs] eqn:Havs.
      * destruct Hloop as [h' Hloop]. exists h'. rewrite Hloop. reflexivity.
      * destruct Hloop as (Hloop & _ & _).
        pose proof (same_place_all _ _ _ _ _ Hsteps Havs) as Hplace.
        split.
        { intros m. rewrite !objects_of_arr, !value_of_arr, !length_app.
          destruct (Hplace m) as [-> ->]. split; reflexivity. }
        assert (Htext : exists text, stringify_tree (TArr avs) = Some text)
          by (eexists; reflexivity).
        destruct Htext as [text Htext]. exists text. split; [exact Htext |].
        rewrite Hloop. destruct (Hplace (length pre)) as [Hlen Hvals].
        replace (pre ++ objects_all avs (length pre)
                     ++ [Arr (values_all elems (length pre))] ++ post)
          with (pre ++ objects_of (TArr avs) (length pre) ++ post)
          by (rewrite objects_of_arr, Hvals, <- app_assoc; reflexivity).
        replace (VRef (length pre + length (objects_all elems (length pre))))
          with (value_of (TArr avs) (length pre))
          by (rewrite value_of_arr, Hlen; reflexivity).
        rewrite stringify_img by (rewrite (Hformat_height _ eq_refl); exact Hheight).
        rewrite Htext. reflexivity.
    + apply shape_obj in Hshape as [Hnodup Hshapes].
      pose proof (proj1 (height_obj _ _) Hheight) as Hheights.
      pose proof (format_height (TObj attrs)) as [Hformat_height _].
      rewrite format_tree_obj in *. rewrite objects_of_obj, value_of_obj.
      set (ts := map snd attrs) in *. set (names := map fst attrs) in *.
      assert (Hnames : length names = length (values_all ts (length pre))).
      { subst names ts. rewrite length_values_all, !length_map. reflexivity. }
      rewrite (_formatForDataPipeline_obj _ _ (zip names (values_all ts (length pre))));
        [| apply lookup_segment_last | apply loaded_not_array_like].
      rewrite keys_of_zip by exact Hnames.
      pose proof (for_each_children
                    (VRef (length pre + length (objects_all ts (length pre))))
                    (rename_tags (_formatForDataPipeline fuel)) format_value
                    ([Obj (zip names (values_all ts (length pre)))] ++ post)
                    (length pre + length (objects_all ts (length pre)))%nat
                    (object_get (Obj (zip names (values_all ts (length pre)))))
                    (map KStr names) ts pre)
        as Hloop.
      assert (Hsteps : Forall2 (carries_out (rename_tags (_formatForDataPipeline fuel)) format_value)
                         (map KStr names) ts).
      { apply carries_out_children; try assumption.
        rewrite length_map, Hnames, length_values_all. reflexivity. }
      specialize (Hloop ltac:(intros A k HA; apply get_prop_ref, list_lookup_middle; congruence)
                        Hsteps (prop_get_zip _ _ Hnodup Hnames) eq_refl).
      rewrite <- (app_assoc (objects_all ts (length pre))).
      destruct (map_result format_value ts) as [e | avs] eqn:Havs.
      * destruct Hloop as [h' Hloop]. exists h'. rewrite Hloop. reflexivity.
      * destruct Hloop as (Hloop & _ & _).
        pose proof (same_place_all _ _ _ _ _ Hsteps Havs) as Hplace.
        assert (Hzip : map fst (zip names avs) = names /\ map snd (zip names avs) = avs).
        { apply zip_fst_snd. rewrite (map_result_length _ _ _ Havs).
          subst names ts. rewrite !length_map. reflexivity. }
        destruct Hzip as [Hfst Hsnd].
        split.
        { intros m. rewrite !objects_of_obj, !value_of_obj, Hfst, Hsnd, !length_app.
          fold ts. destruct (Hplace m) as [-> ->]. split; reflexivity. }
        assert (Htext : exists text, stringify_tree (TObj (zip names avs)) = Some text)
          by (eexists; reflexivity).
        destruct Htext as [text Htext]. exists text. split; [exact Htext |].
        rewrite Hloop. destruct (Hplace (length pre)) as [Hlen Hvals].
        replace (pre ++ objects_all avs (length pre)
                     ++ [Obj (zip names (values_all ts (length pre)))] ++ post)
          with (pre ++ objects_of (TObj (zip names avs)) (length pre) ++ post)
          by (rewrite objects_of_obj, Hfst, Hsnd, Hvals, <- app_assoc; reflexivity).
        replace (VRef (length pre + length (objects_all ts (length pre))))
          with (value_of (TObj (zip names avs)) (length pre))
          by (rewrite value_of_obj, Hsnd, Hlen; reflexivity).
        rewrite stringify_img by (rewrite (Hformat_height _ eq_refl); exact Hheight).
        rewrite Htext. reflexivity.
Qed.

End FormatSimulation.

(** ** [format_tree] against the table: renaming, or the first unknown tag *)

Section FormatSpec.

Implicit Types (t item av : tree) (ts : list tree) (tag : string).

Lemma find_app {A} (f : A -> bool) (l1 l2 : list A) :
  List.find f (l1 ++ l2) =
  match List.find f l1 with
  | Some x => Some x
  | None => List.find f l2
  end.
Proof.
  induction l1 as [| x l1 IH]; [reflexivity |].
  cbn [app List.find]. destruct (f x); [reflexivity | exact IH].
Qed.

Lemma known_tag_true tag : known_tag tag = true <-> exists key, output_key tag = Some key.
Proof. unfold known_tag. rewrite bool_decide_eq_true. reflexivity. Qed.

Lemma known_tag_false tag : known_tag tag = false <-> output_key tag = None.
Proof.
  unfold known_tag. rewrite bool_decide_eq_false, <- eq_None_not_Some. reflexivity.
Qed.

Lemma tags_obj (attrs : list (string * tree)) :
  tags (TObj attrs) = flat_map tags_value (map snd attrs).
Proof.
  change (tags (TObj attrs)) with (flat_map (fun p => tags_value (snd p)) attrs).
  induction attrs as [| p attrs IH]; [reflexivity |].
  cbn [flat_map map]. rewrite IH. reflexivity.
Qed.

Lemma tags_arr ts : tags (TArr ts) = flat_map tags_value ts.
Proof. reflexivity. Qed.

Lemma renamed_obj (attrs : list (string * tree)) :
  renamed (TObj attrs) = TObj (map (fun p => (fst p, renamed_value (snd p))) attrs).
Proof. reflexivity. Qed.

Lemma renamed_arr ts : renamed (TArr ts) = TArr (map renamed_value ts).
Proof. reflexivity. Qed.

Lemma stringify_obj (props : list (string * tree)) :
  stringify_tree (TObj props) =
  Some ("{" +:+ JSON.join (omap id (zip_with JSON.member (map fst props)
                                      (map stringify_tree (map snd props)))) +:+ "}").
Proof. rewrite omap_members. reflexivity. Qed.

Lemma stringify_arr ts :
  stringify_tree (TArr ts) =
  Some ("[" +:+ JSON.join (map JSON.element (map stringify_tree ts)) +:+ "]").
Proof. rewrite map_map. reflexivity. Qed.

(** What a list of typed values becomes. *)
Lemma format_values ts :
  Forall (fun av =>
            match List.find (fun tag => negb (known_tag tag)) (tags_value av) with
            | Some tag => format_value av = inl (unknown_key tag)
            | None => exists av', format_value av = inr av' /\
                                  stringify_tree av' = stringify_tree (renamed_value av)
            end) ts ->
  match List.find (fun tag => negb (known_tag tag)) (flat_map tags_value ts) with
  | Some tag => map_result format_value ts = inl (unknown_key tag)
  | None => exists ts', map_result format_value ts = inr ts' /\
                        map stringify_tree ts' = map stringify_tree (map renamed_value ts)
  end.
Proof.
  induction 1 as [| av ts Hav _ IH].
  - exists []. split; reflexivity.
  - cbn [flat_map map_result]. rewrite find_app.
    destruct (List.find _ (tags_value av)) as [tag |].
    + rewrite Hav. reflexivity.
    + destruct Hav as (av' & -> & Hav').
      destruct (List.find _ (flat_map tags_value ts)) as [tag |].
      * rewrite IH. reflexivity.
      * destruct IH as (ts' & -> & Hts'). exists (av' :: ts'). split; [reflexivity |].
        cbn [map]. rewrite Hav', Hts'. reflexivity.
Qed.

Lemma format_tree_spec t :
  (shape t = true ->
   match first_unknown t with
   | Some tag => format_tree t = inl (unknown_key tag)
   | None => exists t', format_tree t = inr t' /\
                        stringify_tree t' = stringify_tree (renamed t)
   end) /\
  (value_shape t = true ->
   match List.find (fun tag => negb (known_tag tag)) (tags_value t) with
   | Some tag => format_value t = inl (unknown_key tag)
   | None => exists t', format_value t = inr t' /\
                        stringify_tree t' = stringify_tree (renamed_value t)
   end).
Proof.
  unfold first_unknown.
  induction t as [| | b | s | bytes | elems IH | props IH] using tree_induction;
    try (split; discriminate).
  - split; [| discriminate]. intros Hshape. apply shape_arr in Hshape.
    rewrite tags_arr, format_tree_arr, renamed_arr.
    pose proof (format_values elems) as Hvalues.
    destruct (List.find _ (flat_map tags_value elems)) as [tag |].
    + rewrite Hvalues; [reflexivity |].
      rewrite Forall_forall in *. intros av Hav. apply IH; auto.
    + destruct Hvalues as (ts' & -> & Hts').
      { rewrite Forall_forall in *. intros av Hav. apply IH; auto. }
      eexists. split; [reflexivity |]. rewrite !stringify_arr, Hts'. reflexivity.
  - split.
    + intros Hshape. apply shape_obj in Hshape as [Hnodup Hshapes].
      rewrite tags_obj, format_tree_obj, renamed_obj.
      pose proof (format_values (map snd props)) as Hvalues.
      assert (Hall : Forall (fun av =>
                match List.find (fun tag => negb (known_tag tag)) (tags_value av) with
                | Some tag => format_value av = inl (unknown_key tag)
                | None => exists av', format_value av = inr av' /\
                                      stringify_tree av' = stringify_tree (renamed_value av)
                end) (map snd props)).
      { rewrite Forall_map in *. rewrite Forall_forall in *.
        intros p Hp. apply IH; auto. }
      specialize (Hvalues Hall).
      destruct (List.find _ (flat_map tags_value (map snd props))) as [tag |].
      * rewrite Hvalues. reflexivity.
      * destruct Hvalues as (ts' & Hts' & Htexts). rewrite Hts'.
        eexists. split; [reflexivity |]. rewrite !stringify_obj.
        destruct (zip_fst_snd (map fst props) ts') as [-> ->].
        { rewrite (map_result_length _ _ _ Hts'), !length_map. reflexivity. }
        replace (map fst (map (fun p : string * tree => (fst p, renamed_value (snd p))) props))
          with (map fst props) by (rewrite map_map; reflexivity).
        replace (map snd (map (fun p : string * tree => (fst p, renamed_value (snd p))) props))
          with (map renamed_value (map snd props)) by (rewrite !map_map; reflexivity).
        rewrite Htexts. reflexivity.
    + destruct props as [| [tag payload] [|]]; try discriminate.
      cbn [value_shape tags_value format_value renamed_value List.find].
      apply Forall_cons in IH as [[IHpayload _] _]. cbn [snd] in IHpayload.
      intros Hshape.
      destruct (known_tag tag) eqn:Hknown; cbn [negb].
      * apply known_tag_true in Hknown as [key Hkey]. rewrite Hkey.
        destruct (is_container tag).
        -- specialize (IHpayload Hshape).
           destruct (List.find _ (tags payload)) as [tag' |].
           ++ rewrite IHpayload. reflexivity.
           ++ destruct IHpayload as (payload' & -> & Hpayload').
              eexists. split; [reflexivity |].
              cbn [stringify_tree omap list_omap fst snd JSON.member fmap option_fmap option_map default].
              rewrite Hpayload'. reflexivity.
        -- eexists. split; reflexivity.
      * apply known_tag_false in Hknown. rewrite Hknown. reflexivity.
Qed.

End FormatSpec.

(** ** The base64 step on a loaded record *)

Section EncodeSimulation.

Implicit Types (t item av : tree) (ts : list tree) (pre post : heap).

Lemma map_result_inr {A B} (f : A -> B) (xs : list A) :
  map_result (fun x => inr (f x)) xs = inr (map f xs).
Proof.
  induction xs as [| x xs IH]; [reflexivity |].
  cbn [map_result map]. rewrite IH. reflexivity.
Qed.

Lemma encoded_value_other tag payload :
  tag <> "B"%string -> encoded_value (TObj [(tag, payload)]) = TObj [(tag, payload)].
Proof.
  intros Htag. apply String.eqb_neq in Htag.
  destruct payload; cbn [encoded_value]; rewrite ?Htag; reflexivity.
Qed.

Lemma encode_value_carries_out k av :
  value_shape av = true -> binary_value av = true ->
  carries_out encode_value (fun t => inr (encoded_value t)) k av.
Proof.
  intros Hshape Hbinary pre post. cbn zeta beta iota.
  destruct av as [| | | | | | props]; try discriminate.
  destruct props as [| [tag payload] [|]]; try discriminate.
  cbn [binary_value] in Hbinary.
  rewrite objects_of_value, value_of_value.
  assert (Hrun : encode_value (VRef (length pre + length (objects_of payload (length pre)))) k
                   (pre ++ (objects_of payload (length pre)
                              ++ [Obj [(tag, value_of payload (length pre))]]) ++ post) =
                 Ok tt (pre ++ objects_of (encoded_value (TObj [(tag, payload)])) (length pre)
                            ++ post)).
  { unfold encode_value. cbn [truthy]. unfold bind at 1.
    rewrite (get_prop_ref _ _ (Obj [(tag, value_of payload (length pre))]))
      by apply lookup_segment_last.
    cbn [object_get key_string prop_get].
    destruct (String.eqb_spec tag "B") as [-> | Hother].
    - destruct payload; try discriminate.
      change (value_of (TBuf bytes) (length pre)) with (VBuf bytes).
      change (objects_of (TBuf bytes) (length pre)) with (@nil object).
      cbn [truthy Buffer.from encoded_value String.eqb Ascii.eqb Bool.eqb].
      unfold bind, ret.
      rewrite (set_prop_old _ _ [("B"%string, VBuf bytes)]);
        [| apply lookup_segment_last | reflexivity].
      rewrite insert_segment_last. reflexivity.
    - rewrite encoded_value_other by exact Hother.
      rewrite objects_of_value. reflexivity. }
  split; [| exact Hrun].
  intros m. destruct (String.eqb_spec tag "B") as [-> | Hother].
  - destruct payload; try discriminate. split; reflexivity.
  - rewrite encoded_value_other by exact Hother. split; reflexivity.
Qed.

Lemma encodeBinary_each (v : val) : encodeBinary v = Lodash.each v encode_value.
Proof. reflexivity. Qed.

Lemma binary_obj (attrs : list (string * tree)) :
  binary (TObj attrs) = true <-> Forall (fun av => binary_value av = true) (map snd attrs).
Proof.
  cbn [binary]. rewrite forallb_forall, Forall_map, Forall_forall.
  split; intros Hall p Hp; apply Hall; apply list_elem_of_In; exact Hp.
Qed.

Lemma binary_arr ts :
  binary (TArr ts) = true <-> Forall (fun av => binary_value av = true) ts.
Proof.
  cbn [binary]. rewrite forallb_forall, Forall_forall.
  split; intros Hall p Hp; apply Hall; apply list_elem_of_In; exact Hp.
Qed.

Lemma encode_children (keys : list JS.key) ts :
  length keys = length ts ->
  Forall (fun av => value_shape av = true) ts ->
  Forall (fun av => binary_value av = true) ts ->
  Forall2 (carries_out encode_value (fun t => inr (encoded_value t))) keys ts.
Proof.
  intros Hlen Hshapes Hbinary. apply Forall2_any_key; [exact Hlen |].
  rewrite Forall_forall in *. intros av Hav k.
  apply encode_value_carries_out; auto.
Qed.

(** [encodeBinary] leaves the record [encoded] describes, at the same
    addresses. *)
Lemma encodeBinary_sim item pre post :
  shape item = true -> binary item = true ->
  encodeBinary (value_of item (length pre)) (pre ++ objects_of item (length pre) ++ post) =
    Ok tt (pre ++ objects_of (encoded item) (length pre) ++ post) /\
  (forall m, length (objects_of (encoded item) m) = length (objects_of item m) /\
             value_of (encoded item) m = value_of item m).
Proof.
  intros Hshape Hbinary.
  destruct item as [| | | | | elems | attrs]; try discriminate.
  - apply shape_arr in Hshape. apply binary_arr in Hbinary.
    assert (Hsteps : Forall2 (carries_out encode_value (fun t => inr (encoded_value t)))
                       (Lodash.indices (length (values_all elems (length pre)))) elems).
    { apply encode_children; try assumption.
      unfold Lodash.indices. rewrite length_map, length_seq, length_values_all. reflexivity. }
    pose proof (same_place_all _ _ _ _ _ Hsteps (map_result_inr _ _)) as Hplace.
    cbn [encoded]. split.
    + rewrite objects_of_arr, value_of_arr. rewrite encodeBinary_each.
      rewrite (each_arr _ _ (values_all elems (length pre))) by apply lookup_segment_last.
      pose proof (for_each_children
                    (VRef (length pre + length (objects_all elems (length pre))))
                    encode_value (fun t => inr (encoded_value t))
                    ([Arr (values_all elems (length pre))] ++ post)
                    (length pre + length (objects_all elems (length pre)))%nat
                    (object_get (Arr (values_all elems (length pre))))
                    (Lodash.indices (length (values_all elems (length pre)))) elems pre
                    ltac:(intros A k HA; apply get_prop_ref, list_lookup_middle; congruence)
                    Hsteps (elems_get _) eq_refl) as Hloop.
      rewrite map_result_inr in Hloop. destruct Hloop as (Hloop & _ & _).
      rewrite <- (app_assoc (objects_all elems (length pre))), Hloop.
      destruct (Hplace (length pre)) as [_ Hvals].
      rewrite objects_of_arr, Hvals, <- app_assoc. reflexivity.
    + intros m. rewrite !objects_of_arr, !value_of_arr, !length_app.
      destruct (Hplace m) as [-> ->]. split; reflexivity.
  - apply shape_obj in Hshape as [Hnodup Hshapes]. apply binary_obj in Hbinary.
    set (ts := map snd attrs) in *. set (names := map fst attrs) in *.
    assert (Hnames : length names = length (values_all ts (length pre))).
    { subst names ts. rewrite length_values_all, !length_map. reflexivity. }
    assert (Hsteps : Forall2 (carries_out encode_value (fun t => inr (encoded_value t)))
                       (map KStr names) ts).
    { apply encode_children; try assumption.
      rewrite length_map, Hnames, length_values_all. reflexivity. }
    pose proof (same_place_all _ _ _ _ _ Hsteps (map_result_inr _ _)) as Hplace.
    assert (Hfst : map fst (map (fun p : string * tree => (fst p, encoded_value (snd p))) attrs)
                   = names) by (rewrite map_map; reflexivity).
    assert (Hsnd : map snd (map (fun p : string * tree => (fst p, encoded_value (snd p))) attrs)
                   = map encoded_value ts) by (subst ts; rewrite !map_map; reflexivity).
    cbn [encoded]. split.
    + rewrite objects_of_obj, value_of_obj. fold ts names. rewrite encodeBinary_each.
      rewrite (each_obj _ _ (zip names (values_all ts (length pre))));
        [| apply lookup_segment_last | apply loaded_not_array_like].
      rewrite keys_of_zip by exact Hnames.
      pose proof (for_each_children
                    (VRef (length pre + length (objects_all ts (length pre))))
                    encode_value (fun t => inr (encoded_value t))
                    ([Obj (zip names (values_all ts (length pre)))] ++ post)
                    (length pre + length (objects_all ts (length pre)))%nat
                    (object_get (Obj (zip names (values_all ts (length pre)))))
                    (map KStr names) ts pre
                    ltac:(intros A k HA; apply get_prop_ref, list_lookup_middle; congruence)
                    Hsteps (prop_get_zip _ _ Hnodup Hnames) eq_refl) as Hloop.
      rewrite map_result_inr in Hloop. destruct Hloop as (Hloop & _ & _).
      rewrite <- (app_assoc (objects_all ts (length pre))), Hloop.
      destruct (Hplace (length pre)) as [_ Hvals].
      rewrite objects_of_obj, Hfst, Hsnd, Hvals, <- app_assoc. reflexivity.
    + intros m. rewrite !objects_of_obj, !value_of_obj, Hfst, Hsnd, !length_app. fold ts.
      destruct (Hplace m) as [-> ->]. split; reflexivity.
Qed.

End EncodeSimulation.

(** ** Loading, and the tags the table lists *)

Section Loading.

Implicit Types (t item av : tree) (ts : list tree) (h pre post : heap) (tag : string).

Lemma load_run t h :
  load t h = Ok (value_of t (length h)) (h ++ objects_of t (length h)).
Proof.
  unfold load, value_of, objects_of. destruct (img t (length h)). reflexivity.
Qed.

Lemma load_all_run ts h :
  load_all ts h = Ok (values_all ts (length h)) (h ++ objects_all ts (length h)).
Proof.
  unfold load_all, values_all, objects_all. destruct (img_all img ts (length h)). reflexivity.
Qed.

Lemma known_tag_type_tags tag : known_tag tag = true <-> tag ∈ type_tags.
Proof.
  rewrite known_tag_true. split.
  - intros [key Hkey]. apply output_key_In in Hkey.
    unfold type_tags. apply list_elem_of_fmap. exists (tag, key).
    split; [reflexivity | apply list_elem_of_In; exact Hkey].
  - unfold type_tags, output_keys. cbn [map fst]. rewrite !elem_of_cons, elem_of_nil.
    intros Htag. repeat destruct Htag as [-> | Htag]; try (eexists; reflexivity).
    contradiction.
Qed.

Lemma first_unknown_None item : tags item ⊆ type_tags -> first_unknown item = None.
Proof.
  intros Hknown. unfold first_unknown.
  destruct (List.find _ (tags item)) as [tag |] eqn:Hfind; [| reflexivity].
  apply find_some in Hfind as [Hin Hunknown].
  apply list_elem_of_In, Hknown, known_tag_type_tags in Hin.
  rewrite Hin in Hunknown. discriminate.
Qed.

Lemma first_unknown_Some item :
  ~ (tags item ⊆ type_tags) ->
  exists tag, first_unknown item = Some tag /\ tag ∈ tags item /\ (tag ∉ type_tags).
Proof.
  intros Hunknown. unfold first_unknown.
  destruct (List.find _ (tags item)) as [tag |] eqn:Hfind.
  - apply find_some in Hfind as [Hin Htag]. exists tag.
    split; [reflexivity |]. split; [apply list_elem_of_In; exact Hin |].
    rewrite <- known_tag_type_tags. apply negb_true_iff in Htag. congruence.
  - exfalso. apply Hunknown. intros tag Htag.
    apply known_tag_type_tags.
    pose proof (find_none _ _ Hfind tag ltac:(apply list_elem_of_In; exact Htag)) as Hk.
    apply negb_false_iff in Hk. exact Hk.
Qed.

(** The base64 step keeps the shape, the tags and the depth of a record. *)
Lemma encoded_value_facts av :
  value_shape (encoded_value av) = value_shape av /\
  tags_value (encoded_value av) = tags_value av /\
  height (encoded_value av) = height av.
Proof.
  destruct av as [| | | | | | props]; try (repeat split; reflexivity).
  destruct props as [| [tag payload] [| p props]]; try (repeat split; reflexivity).
  - destruct (String.eqb_spec tag "B") as [-> | Hother].
    + destruct payload; repeat split; reflexivity.
    + rewrite encoded_value_other by exact Hother. repeat split; reflexivity.
  - destruct payload; repeat split; reflexivity.
Qed.

Lemma encoded_facts item :
  shape item = true ->
  shape (encoded item) = true /\
  tags (encoded item) = tags item /\
  height (encoded item) = height item.
Proof.
  intros Hshape. destruct item as [| | | | | elems | attrs]; try discriminate.
  - cbn [encoded]. split; [| split].
    + apply shape_arr. apply shape_arr in Hshape. rewrite Forall_map.
      eapply Forall_impl; [exact Hshape |]. intros av Hav. cbn beta.
      destruct (encoded_value_facts av) as (-> & _). exact Hav.
    + rewrite !tags_arr. clear Hshape. induction elems as [| av elems IH]; [reflexivity |].
      cbn [map flat_map]. destruct (encoded_value_facts av) as (_ & -> & _).
      rewrite IH. reflexivity.
    + cbn [height]. rewrite map_map. do 2 f_equal. apply map_ext. intros av.
      apply encoded_value_facts.
  - assert (Hfst : map fst (map (fun p : string * tree => (fst p, encoded_value (snd p))) attrs)
                   = map fst attrs) by (rewrite map_map; reflexivity).
    assert (Hsnd : map snd (map (fun p : string * tree => (fst p, encoded_value (snd p))) attrs)
                   = map encoded_value (map snd attrs)) by (rewrite !map_map; reflexivity).
    cbn [encoded]. split; [| split].
    + apply shape_obj. apply shape_obj in Hshape as [Hnodup Hshapes].
      rewrite Hfst, Hsnd. split; [exact Hnodup |]. rewrite Forall_map.
      eapply Forall_impl; [exact Hshapes |]. intros av Hav. cbn beta.
      destruct (encoded_value_facts av) as (-> & _). exact Hav.
    + rewrite !tags_obj, Hsnd. clear. induction attrs as [| [k av] attrs IH]; [reflexivity |].
      cbn [map flat_map snd]. destruct (encoded_value_facts av) as (_ & -> & _).
      rewrite IH. reflexivity.
    + cbn [height]. rewrite map_map. cbn [snd]. do 2 f_equal. apply map_ext. intros [k av].
      apply encoded_value_facts.
Qed.

Lemma stringify_shape item : shape item = true -> stringify_tree item = Some (text_of item).
Proof.
  intros Hshape. unfold text_of.
  destruct item; try discriminate; reflexivity.
Qed.

Lemma shape_renamed item : shape item = true -> stringify_tree (renamed item) = Some (text_of (renamed item)).
Proof.
  intros Hshape. unfold text_of.
  destruct item; try discriminate; reflexivity.
Qed.

End Loading.

(** ** Writing one record *)

Section WriteItem.

Implicit Types (t item : tree) (ts : list tree) (h pre post : heap) (w : World).

Lemma on_heap_Ok {A} (m : M heap A) w a h :
  m (heap_of w) = Ok a h -> on_heap m w = Ok a (with_heap h w).
Proof. intros Hm. unfold on_heap. rewrite Hm. reflexivity. Qed.

Lemma on_heap_Throw {A} (m : M heap A) w e h :
  m (heap_of w) = Throw e h -> on_heap m w = Throw e (with_heap h w).
Proof. intros Hm. unfold on_heap. rewrite Hm. reflexivity. Qed.

Lemma with_heap_same w : with_heap (heap_of w) w = w.
Proof. destruct w. reflexivity. Qed.

Lemma writeItem_eq self fuel (v : val) :
  writeItem self fuel v =
  ((if base64Binary self then on_heap (encodeBinary v) else ret tt) ;;;
   (if saveDataPipelineFormat self
    then text <- on_heap (_formatForDataPipeline fuel v) ;; stream_append text
    else text <- on_heap (JSON.stringify fuel v) ;; stream_append text) ;;;
   stream_append newline).
Proof. reflexivity. Qed.

(** The first step: the record the base64 step leaves, when it is enabled. *)
Lemma encode_part self t pre post w :
  shape t = true -> (base64Binary self = true -> binary t = true) ->
  heap_of w = pre ++ objects_of t (length pre) ++ post ->
  let t1 := if base64Binary self then encoded t else t in
  (if base64Binary self then on_heap (encodeBinary (value_of t (length pre))) else ret tt) w =
    Ok tt (with_heap (pre ++ objects_of t1 (length pre) ++ post) w) /\
  (forall m, length (objects_of t1 m) = length (objects_of t m) /\
             value_of t1 m = value_of t m) /\
  shape t1 = true /\ tags t1 = tags t /\ height t1 = height t.
Proof.
  intros Hshape Hbinary Hheap. destruct (base64Binary self); cbn zeta.
  - destruct (encodeBinary_sim t pre post Hshape (Hbinary eq_refl)) as [Hrun Hplace].
    split; [| split; [exact Hplace | apply encoded_facts; exact Hshape]].
    apply on_heap_Ok. rewrite Hheap. exact Hrun.
  - split; [| repeat split; assumption].
    unfold ret. rewrite <- Hheap, with_heap_same. reflexivity.
Qed.

(** The second step, when it succeeds: the text of the record. *)
Lemma text_part self fuel t pre post w :
  shape t = true -> (height t <= fuel)%nat ->
  (saveDataPipelineFormat self = true -> tags t ⊆ type_tags) ->
  heap_of w = pre ++ objects_of t (length pre) ++ post ->
  let text := text_of (if saveDataPipelineFormat self then renamed t else t) in
  exists objs,
    length objs = length (objects_of t (length pre)) /\
    (if saveDataPipelineFormat self
     then text <- on_heap (_formatForDataPipeline fuel (value_of t (length pre))) ;;
          stream_append text
     else text <- on_heap (JSON.stringify fuel (value_of t (length pre))) ;;
          stream_append text) w =
    Ok tt {| heap_of := pre ++ objs ++ post;
             stream := append text (stream w);
             appended := appended w ++ [text];
             requests := requests w; events := events w; finished := finished w |}.
Proof.
  intros Hshape Hheight Hknown Hheap. destruct (saveDataPipelineFormat self); cbn zeta.
  - pose proof (format_sim fuel t Hshape Hheight pre post) as Hformat. cbn zeta in Hformat.
    destruct (format_tree_spec t) as [Hspec _]. specialize (Hspec Hshape).
    rewrite (first_unknown_None t (Hknown eq_refl)) in Hspec.
    destruct Hspec as (t' & Ht' & Htext). rewrite Ht' in Hformat.
    destruct Hformat as (Hplace & text & Htext' & Hrun).
    exists (objects_of t' (length pre)). split; [apply Hplace |].
    unfold bind. erewrite on_heap_Ok by (rewrite Hheap; exact Hrun).
    rewrite Htext, (shape_renamed t Hshape) in Htext'. injection Htext' as <-.
    reflexivity.
  - exists (objects_of t (length pre)). split; [reflexivity |].
    pose proof (stringify_img fuel t pre post Hheight) as Hrun.
    rewrite (stringify_shape t Hshape) in Hrun.
    unfold bind. erewrite on_heap_Ok by (rewrite Hheap; exact Hrun).
    reflexivity.
Qed.

(** A writable record adds its line and a newline to the sink, and its
    objects keep their addresses. *)
Lemma writeItem_writes self fuel t pre post w :
  writable self fuel t ->
  heap_of w = pre ++ objects_of t (length pre) ++ post ->
  exists objs,
    length objs = length (objects_of t (length pre)) /\
    writeItem self fuel (value_of t (length pre)) w =
    Ok tt {| heap_of := pre ++ objs ++ post;
             stream := append newline (append (line self t) (stream w));
             appended := appended w ++ [line self t; newline];
             requests := requests w; events := events w; finished := finished w |}.
Proof.
  intros (Hshape & Hheight & Hbinary & Hknown) Hheap.
  destruct (encode_part self t pre post w Hshape Hbinary Hheap)
    as (Hencode & Hplace & Hshape1 & Htags1 & Hheight1).
  set (t1 := if base64Binary self then encoded t else t) in *. cbn zeta in *.
  destruct (text_part self fuel t1 pre post
              (with_heap (pre ++ objects_of t1 (length pre) ++ post) w))
    as (objs & Hlen & Htext); try assumption.
  { rewrite Hheight1. exact Hheight. }
  { rewrite Htags1. exact Hknown. }
  { reflexivity. }
  exists objs. split; [rewrite Hlen; apply Hplace |].
  rewrite writeItem_eq. unfold bind at 1. rewrite Hencode.
  unfold bind at 1. destruct (Hplace (length pre)) as [_ Hval]. rewrite <- Hval.
  cbn zeta in Htext. rewrite Htext.
  unfold stream_append, on_stream, line. cbn [heap_of stream appended requests events finished with_heap].
  fold t1. rewrite <- app_assoc. reflexivity.
Qed.

(** A record with an unknown tag: the renaming throws before anything is
    appended for it. *)
Lemma writeItem_throws self fuel t tag pre post w :
  shape t = true -> (height t <= fuel)%nat ->
  (base64Binary self = true -> binary t = true) ->
  saveDataPipelineFormat self = true ->
  first_unknown t = Some tag ->
  heap_of w = pre ++ objects_of t (length pre) ++ post ->
  exists h',
    writeItem self fuel (value_of t (length pre)) w = Throw (unknown_key tag) (with_heap h' w).
Proof.
  intros Hshape Hheight Hbinary Hpipeline Hunknown Hheap.
  destruct (encode_part self t pre post w Hshape Hbinary Hheap)
    as (Hencode & Hplace & Hshape1 & Htags1 & Hheight1).
  set (t1 := if base64Binary self then encoded t else t) in *. cbn zeta in *.
  pose proof (format_sim fuel t1 Hshape1 ltac:(lia) pre post) as Hformat. cbn zeta in Hformat.
  destruct (format_tree_spec t1) as [Hspec _]. specialize (Hspec Hshape1).
  unfold first_unknown in Hspec, Hunknown. rewrite Htags1, Hunknown in Hspec.
  rewrite Hspec in Hformat. destruct Hformat as [h' Hrun].
  exists h'. rewrite writeItem_eq. unfold bind at 1. rewrite Hencode.
  rewrite Hpipeline. unfold bind at 1. unfold bind at 1.
  destruct (Hplace (length pre)) as [_ Hval]. rewrite <- Hval.
  erewrite on_heap_Throw by exact Hrun. reflexivity.
Qed.

End WriteItem.

(** ** The transforms on a record as the SDK delivers it *)

Section Transforms.

Implicit Types (item : tree) (h : heap) (w : World).

(** C3: for a record whose tags are all in the table, the transform returns
    the JSON text of the record with every tag replaced by its output key, at
    every level, with the attributes and the payloads as they were and in
    their order; the item itself, as the assignments left it, serializes to
    the same text. *)
Theorem formatForDataPipeline_renames item fuel h :
  shape item = true ->
  tags item ⊆ type_tags ->
  (height item <= fuel)%nat ->
  exists h',
    (v <- load item ;; _formatForDataPipeline fuel v) h = Ok (text_of (renamed item)) h' /\
    stringify_tree (renamed item) = Some (text_of (renamed item)) /\
    JSON.stringify fuel (value_of item (length h)) h' = Ok (text_of (renamed item)) h'.
Proof.
  intros Hshape Hknown Hheight.
  pose proof (format_sim fuel item Hshape Hheight h []) as Hformat. cbn zeta in Hformat.
  destruct (format_tree_spec item) as [Hspec _]. specialize (Hspec Hshape).
  rewrite (first_unknown_None item Hknown) in Hspec.
  destruct Hspec as (item' & Hitem' & Htext). rewrite Hitem' in Hformat.
  destruct Hformat as (Hplace & text & Htext' & Hrun).
  rewrite Htext, (shape_renamed item Hshape) in Htext'. injection Htext' as <-.
  exists (h ++ objects_of item' (length h) ++ []).
  split; [| split].
  - unfold bind. rewrite load_run. rewrite app_nil_r in Hrun. exact Hrun.
  - apply shape_renamed. exact Hshape.
  - destruct (Hplace (length h)) as [_ <-].
    rewrite stringify_img.
    + rewrite Htext, (shape_renamed item Hshape). reflexivity.
    + destruct (format_height item) as [Hh _]. rewrite (Hh item' Hitem'). exact Hheight.
Qed.

Lemma formatForDataPipeline_renames_witness :
  let item := TObj [("id", TObj [("S", TStr "x")]);
                    ("tags", TObj [("SS", TArr [TStr "a"; TStr "b"])]);
                    ("meta", TObj [("M", TObj [("flag", TObj [("BOOL", TBool true)])])])]%string in
  renamed item =
    TObj [("id", TObj [("s", TStr "x")]);
          ("tags", TObj [("sS", TArr [TStr "a"; TStr "b"])]);
          ("meta", TObj [("m", TObj [("flag", TObj [("bOOL", TBool true)])])])]%string /\
  exists h',
    (v <- load item ;; _formatForDataPipeline 4 v) [] = Ok (text_of (renamed item)) h' /\
    stringify_tree (renamed item) = Some (text_of (renamed item)) /\
    JSON.stringify 4 (value_of item 0) h' = Ok (text_of (renamed item)) h'.
Proof.
  intros item. split; [reflexivity |].
  apply (formatForDataPipeline_renames item 4 []).
  - reflexivity.
  - intros tag Htag. apply known_tag_type_tags.
    cbn in Htag. rewrite !elem_of_cons, elem_of_nil in Htag.
    repeat destruct Htag as [-> | Htag]; try reflexivity. contradiction.
  - cbn. lia.
Defined.

(** C8: a record with a tag outside the table makes the transform throw the
    unknown-key error for the first such tag, and [backupTable] appends
    nothing for that record: the error leaves [itemsReceived] as it is
    thrown, the rest of the page is not visited. *)
Theorem formatForDataPipeline_unknown_tag self item fuel rest w :
  shape item = true ->
  (height item <= fuel)%nat ->
  (base64Binary self = true -> binary item = true) ->
  saveDataPipelineFormat self = true ->
  ~ (tags item ⊆ type_tags) ->
  exists tag,
    tag ∈ tags item /\ (tag ∉ type_tags) /\
    (exists h', (v <- load item ;; _formatForDataPipeline fuel v) (heap_of w) =
                Throw (unknown_key tag) h') /\
    (exists w', (v <- on_heap (load item) ;; itemsReceived self fuel (v :: rest)) w =
                Throw (unknown_key tag) w' /\
                appended w' = appended w /\ stream w' = stream w /\
                finished w' = finished w).
Proof.
  intros Hshape Hheight Hbinary Hpipeline Hunknown.
  destruct (first_unknown_Some item Hunknown) as (tag & Hfirst & Hin & Hout).
  exists tag. split; [exact Hin |]. split; [exact Hout |]. split.
  - pose proof (format_sim fuel item Hshape Hheight (heap_of w) []) as Hformat.
    cbn zeta in Hformat.
    destruct (format_tree_spec item) as [Hspec _]. specialize (Hspec Hshape).
    rewrite Hfirst in Hspec. rewrite Hspec in Hformat. destruct Hformat as [h' Hrun].
    exists h'. unfold bind. rewrite load_run. rewrite app_nil_r in Hrun. exact Hrun.
  - destruct (writeItem_throws self fuel item tag (heap_of w) []
                (with_heap (heap_of w ++ objects_of item (length (heap_of w))) w))
      as [h' Hrun]; try assumption.
    { cbn [heap_of with_heap]. rewrite app_nil_r. reflexivity. }
    exists (with_heap h' w). split; [| repeat split; reflexivity].
    unfold bind at 1. erewrite on_heap_Ok by apply load_run.
    change (itemsReceived self fuel (?v :: rest))
      with (writeItem self fuel v ;;; forEach rest (writeItem self fuel)).
    unfold bind. rewrite Hrun. reflexivity.
Qed.

Lemma formatForDataPipeline_unknown_tag_witness :
  let self := {| excludedTables := []; includedTables := None; readPercentage := 0.25;
                 stopOnFailure := false; base64Binary := false;
                 saveDataPipelineFormat := true |} in
  let item := TObj [("id", TObj [("S", TStr "x")]); ("at", TObj [("TS", TStr "1")])]%string in
  exists tag,
    tag ∈ tags item /\ (tag ∉ type_tags) /\
    (exists h', (v <- load item ;; _formatForDataPipeline 2 v) (heap_of new_World) =
                Throw (unknown_key tag) h') /\
    (exists w', (v <- on_heap (load item) ;; itemsReceived self 2 [v]) new_World =
                Throw (unknown_key tag) w' /\
                appended w' = appended new_World /\ stream w' = stream new_World /\
                finished w' = finished new_World).
Proof.
  intros self item.
  apply (formatForDataPipeline_unknown_tag self item 2 [] new_World).
  - reflexivity.
  - cbn. lia.
  - discriminate.
  - reflexivity.
  - intros Hall. specialize (Hall "TS"%string).
    apply known_tag_type_tags in Hall; [discriminate |].
    cbn. rewrite !elem_of_cons. auto.
Defined.

(** C10: the base64 step, on a record whose top-level binary payloads are
    [Buffer]s, leaves exactly the record [encoded] describes: the payload of
    each top-level [B] replaced by its base64 text, and every other typed
    value as it was, a [BS] and what an [M] or an [L] contains included. *)
Theorem encodeBinary_top_level item h :
  shape item = true ->
  binary item = true ->
  (v <- load item ;; encodeBinary v ;;; ret v) h = load (encoded item) h /\
  (forall bytes, encoded_value (TObj [("B"%string, TBuf bytes)]) =
                 TObj [("B"%string, TStr (Buffer.base64 bytes))]) /\
  (forall tag payload, tag <> "B"%string ->
                       encoded_value (TObj [(tag, payload)]) = TObj [(tag, payload)]).
Proof.
  intros Hshape Hbinary. split; [| split].
  - destruct (encodeBinary_sim item h [] Hshape Hbinary) as [Hrun Hplace].
    unfold bind. rewrite !load_run. rewrite !app_nil_r in Hrun. rewrite Hrun.
    destruct (Hplace (length h)) as [_ ->]. reflexivity.
  - reflexivity.
  - intros tag payload Htag. apply encoded_value_other. exact Htag.
Qed.

Lemma encodeBinary_top_level_witness :
  let item := TObj [("k", TObj [("B", TBuf ["h"; "i"]%byte)]);
                    ("set", TObj [("BS", TArr [TBuf ["h"; "i"]%byte])]);
                    ("in", TObj [("M", TObj [("k", TObj [("B", TBuf ["h"; "i"]%byte)])])])]%string in
  encoded item =
    TObj [("k", TObj [("B", TStr "aGk=")]);
          ("set", TObj [("BS", TArr [TBuf ["h"; "i"]%byte])]);
          ("in", TObj [("M", TObj [("k", TObj [("B", TBuf ["h"; "i"]%byte)])])])]%string /\
  (v <- load item ;; encodeBinary v ;;; ret v) [] = load (encoded item) [].
Proof.
  intros item. split; [reflexivity |].
  apply (proj1 (encodeBinary_top_level item [] eq_refl eq_refl)).
Defined.

End Transforms.

(** ** ScanPaginator and the pipeline of one table *)

Section Paginator.

Implicit Types (t item : tree) (ts items : list tree) (h pre post : heap) (w : World)
  (pages : list ScanOutput) (rest : list ScanResult).

Lemma itemsReceived_cons self fuel (v : val) vs :
  itemsReceived self fuel (v :: vs) = (writeItem self fuel v ;;; itemsReceived self fuel vs).
Proof. reflexivity. Qed.

Lemma append_all_app chunks chunks' s :
  append_all (chunks ++ chunks') s = append_all chunks' (append_all chunks s).
Proof. unfold append_all. apply fold_left_app. Qed.

(** A page of writable records: every record adds its line and a newline,
    in the order of the page. *)
Lemma itemsReceived_writes self fuel ts :
  Forall (writable self fuel) ts ->
  forall pre post w,
    heap_of w = pre ++ objects_all ts (length pre) ++ post ->
    exists h',
      itemsReceived self fuel (values_all ts (length pre)) w =
      Ok tt {| heap_of := h';
               stream := append_all (lines self ts) (stream w);
               appended := appended w ++ lines self ts;
               requests := requests w; events := events w; finished := finished w |}.
Proof.
  induction 1 as [| t ts Ht _ IH]; intros pre post w Hheap.
  - exists (heap_of w). unfold lines. cbn [flat_map]. rewrite app_nil_r.
    destruct w. reflexivity.
  - rewrite values_all_cons, itemsReceived_cons. rewrite objects_all_cons, <- app_assoc in Hheap.
    destruct (writeItem_writes self fuel t pre _ w Ht Hheap) as (objs & Hlen & Hwrite).
    unfold bind. rewrite Hwrite.
    match goal with
    | |- context [itemsReceived _ _ _ ?w1] =>
        destruct (IH (pre ++ objs) post w1) as [h' Hrest]
    end.
    { cbn [heap_of]. rewrite length_app, Hlen, <- app_assoc. reflexivity. }
    rewrite length_app, Hlen in Hrest. rewrite Hrest.
    exists h'. unfold lines. cbn [flat_map heap_of stream appended requests events finished].
    rewrite <- app_assoc. reflexivity.
Qed.

Lemma itemsReceived_guard self fuel (vs : list val) :
  (if Nat.ltb 0 (length vs) then itemsReceived self fuel vs else ret tt) =
  itemsReceived self fuel vs.
Proof. destruct vs; reflexivity. Qed.

Lemma lines_app self ts ts' : lines self (ts ++ ts') = lines self ts ++ lines self ts'.
Proof. unfold lines. apply flat_map_app. Qed.

(** One response and what it adds to the state, before the decision to
    continue. *)
Lemma page_received self fuel data w :
  Forall (writable self fuel) (Items data) ->
  exists h',
    (items <- on_heap (load_all (Items data)) ;;
     if Nat.ltb 0 (length items) then itemsReceived self fuel items else ret tt) w =
    Ok tt {| heap_of := h';
             stream := append_all (lines self (Items data)) (stream w);
             appended := appended w ++ lines self (Items data);
             requests := requests w; events := events w; finished := finished w |}.
Proof.
  intros Hwritable. unfold bind at 1.
  erewrite on_heap_Ok by apply load_all_run.
  rewrite itemsReceived_guard.
  destruct (itemsReceived_writes self fuel (Items data) Hwritable (heap_of w) []
              (with_heap (heap_of w ++ objects_all (Items data) (length (heap_of w))) w))
    as [h' Hrun].
  { cbn [heap_of with_heap]. rewrite app_nil_r. reflexivity. }
  exists h'. rewrite Hrun. reflexivity.
Qed.

Lemma _streamItems_cons data rest tableName startKey limit
    (received : list val -> M World unit) (callback : option Err -> M World unit) w :
  _streamItems (inr data :: rest) tableName startKey limit received callback w =
  (ddb_scan_request tableName limit startKey ;;;
   (items <- on_heap (load_all (Items data)) ;;
    if Nat.ltb 0 (length items) then received items else ret tt) ;;;
   if continues data
   then _streamItems rest tableName (LastEvaluatedKey data) limit received callback
   else callback None) w.
Proof.
  cbn [_streamItems]. unfold bind, continues.
  destruct (ddb_scan_request tableName limit startKey w); try reflexivity.
  destruct (on_heap (load_all (Items data)) s); try reflexivity.
  destruct (if Nat.ltb 0 (length a0) then received a0 else ret tt) as [| | |]; try reflexivity.
  all: destruct (LastEvaluatedKey data) as [[| attr lastKey] |]; reflexivity.
Qed.

Lemma scanFinished_run tableName w :
  scanFinished tableName None w =
  Ok tt {| heap_of := heap_of w; stream := end_ (stream w); appended := appended w;
           requests := requests w; events := events w; finished := finished w ++ [None] |}.
Proof. reflexivity. Qed.

(** The pages of a table, all of writable records, the last one the first
    that does not continue: every page is requested in turn, each with the
    key of the page before it, every record is written in order, and the
    scan ends without an error. *)
Lemma _streamItems_pages self fuel tableName limit pages :
  forall last rest startKey w,
    Forall (fun data => continues data = true) pages ->
    continues last = false ->
    Forall (fun data => Forall (writable self fuel) (Items data)) (pages ++ [last]) ->
    exists h',
      _streamItems (map inr pages ++ inr last :: rest) tableName startKey limit
        (itemsReceived self fuel) (scanFinished tableName) w =
      Ok tt {| heap_of := h';
               stream := end_ (append_all (lines self (concat (map Items (pages ++ [last]))))
                                 (stream w));
               appended := appended w ++ lines self (concat (map Items (pages ++ [last])));
               requests := requests w ++
                 (tableName, limit, startKey)
                   :: map (fun data => (tableName, limit, LastEvaluatedKey data)) pages;
               events := events w;
               finished := finished w ++ [None] |}.
Proof.
  induction pages as [| page pages IH]; intros last rest startKey w Hpages Hlast Hwritable.
  - apply Forall_cons in Hwritable as [Hwritable _].
    cbn [map app concat]. rewrite app_nil_r.
    rewrite _streamItems_cons, Hlast.
    unfold bind at 1. unfold ddb_scan_request at 1.
    unfold bind at 1.
    match goal with
    | |- context [(bind (on_heap _) _) ?w1] =>
        destruct (page_received self fuel last w1 Hwritable) as [h' Hpage]
    end.
    rewrite Hpage, scanFinished_run.
    exists h'. reflexivity.
  - apply Forall_cons in Hpages as [Hpage Hpages].
    cbn [app] in Hwritable. apply Forall_cons in Hwritable as [Hwritable Hwritables].
    cbn [map app concat].
    rewrite _streamItems_cons, Hpage.
    unfold bind at 1. unfold ddb_scan_request at 1.
    unfold bind at 1.
    match goal with
    | |- context [(bind (on_heap _) _) ?w1] =>
        destruct (page_received self fuel page w1 Hwritable) as [h1 Hreceived]
    end.
    rewrite Hreceived.
    match goal with
    | |- context [_streamItems _ _ _ _ _ _ ?w2] =>
        destruct (IH last rest (LastEvaluatedKey page) w2 Hpages Hlast Hwritables)
          as [h' Hrest]
    end.
    rewrite Hrest. exists h'.
    cbn [heap_of stream appended requests events finished].
    rewrite lines_app, append_all_app, <- !app_assoc. reflexivity.
Qed.

(** C2: a table of K pages of N writable records each, no request failing:
    [backupTable] appends to the sink, for every scanned record in the order
    of the pages and within them, its line and then a newline, K x N lines
    in all, and ends the scan without an error after K requests. *)
Theorem backupTable_streams_every_record self fuel tableName capacity pages last rest N w :
  Forall (fun data => continues data = true) pages ->
  continues last = false ->
  Forall (fun data => Forall (writable self fuel) (Items data)) (pages ++ [last]) ->
  Forall (fun data => length (Items data) = N) (pages ++ [last]) ->
  let items := concat (map Items (pages ++ [last])) in
  exists w',
    backupTable_scan self fuel tableName (inr capacity) (map inr pages ++ inr last :: rest) w =
      Ok tt w' /\
    appended w' = appended w ++ flat_map (fun item => [line self item; newline]) items /\
    length items = (length (pages ++ [last]) * N)%nat /\
    length (requests w') = (length (requests w) + length (pages ++ [last]))%nat /\
    finished w' = finished w ++ [None] /\
    events w' = events w.
Proof.
  intros Hpages Hlast Hwritable Hsizes items.
  unfold backupTable_scan, _copyTable.
  destruct (_streamItems_pages self fuel tableName
              (sampleLimit capacity (readPercentage self)) pages last rest None w
              Hpages Hlast Hwritable) as [h' Hrun].
  eexists. split; [exact Hrun |].
  cbn [appended requests finished events]. repeat split.
  - subst items. clear -Hsizes. induction Hsizes as [| data datas Hdata _ IH]; [reflexivity |].
    cbn [map concat length]. rewrite length_app, Hdata, IH. reflexivity.
  - rewrite !length_app. cbn [length]. rewrite length_map. lia.
Qed.

Lemma backupTable_streams_every_record_witness :
  let self := {| excludedTables := []; includedTables := None; readPercentage := 0.25;
                 stopOnFailure := false; base64Binary := true;
                 saveDataPipelineFormat := true |} in
  let a := TObj [("id", TObj [("S", TStr "a")]); ("k", TObj [("B", TBuf ["h"; "i"]%byte)])]%string in
  let b := TObj [("id", TObj [("S", TStr "b")])]%string in
  let c := TObj [("id", TObj [("S", TStr "c")])]%string in
  let d := TObj [("id", TObj [("S", TStr "d")])]%string in
  let page1 := {| Items := [a; b]; LastEvaluatedKey := Some [("id", TObj [("S", TStr "b")])]%string |} in
  let page2 := {| Items := [c; d]; LastEvaluatedKey := None |} in
  exists w',
    backupTable_scan self 3 "T" (inr 1000%float) (map inr [page1] ++ inr page2 :: []) new_World =
      Ok tt w' /\
    appended w' = [line self a; newline; line self b; newline;
                   line self c; newline; line self d; newline] /\
    length (requests w') = 2%nat /\ finished w' = [None].
Proof.
  intros self a b c d page1 page2.
  assert (Hknown : forall tags, tags ⊆ ["S"; "B"]%string -> tags ⊆ type_tags).
  { intros tags Htags tag Htag. apply Htags in Htag. apply known_tag_type_tags.
    rewrite !elem_of_cons, elem_of_nil in Htag.
    repeat destruct Htag as [-> | Htag]; try reflexivity. contradiction. }
  assert (Hwritable : Forall (fun data => Forall (writable self 3) (Items data))
                        ([page1] ++ [page2])).
  { assert (Hitem : forall item, In item [a; b; c; d] -> writable self 3 item).
    { intros item Hitem. cbn [In] in Hitem.
      repeat destruct Hitem as [<- | Hitem]; try contradiction;
        (split; [reflexivity | split; [cbn; lia | split; [intros _; reflexivity |]]]);
        intros _; apply Hknown; intros tag Htag; cbn in Htag;
        rewrite ?elem_of_cons, ?elem_of_nil in *; tauto. }
    assert (Hpage : forall x y, In x [a; b; c; d] -> In y [a; b; c; d] ->
                                Forall (writable self 3) [x; y]).
    { intros x y Hx Hy. apply List.Forall_cons; [apply Hitem; exact Hx |].
      apply List.Forall_cons; [apply Hitem; exact Hy | apply List.Forall_nil]. }
    unfold page1, page2. cbn [app].
    apply List.Forall_cons; [apply Hpage; cbn [In]; tauto |].
    apply List.Forall_cons; [apply Hpage; cbn [In]; tauto | apply List.Forall_nil]. }
  destruct (backupTable_streams_every_record self 3 "T" 1000%float [page1] page2 [] 2 new_World)
    as (w' & Hrun & Happended & _ & Hrequests & Hfinished & _).
  - repeat constructor.
  - reflexivity.
  - exact Hwritable.
  - repeat constructor.
  - exists w'. repeat split; assumption.
Defined.

(** C9: a response whose [LastEvaluatedKey] is an object without keys ends
    the scan as a response without one does: the same steps follow, none of
    the remaining responses is asked for, and with the functions of
    [backupTable] the scan ends without an error after this one request. *)
Theorem empty_key_ends_scan self fuel items rest tableName startKey limit w :
  (forall received callback,
      _streamItems (inr {| Items := items; LastEvaluatedKey := Some [] |} :: rest)
        tableName startKey limit received callback w =
      _streamItems [inr {| Items := items; LastEvaluatedKey := None |}]
        tableName startKey limit received callback w) /\
  (Forall (writable self fuel) items ->
   exists w',
     _streamItems (inr {| Items := items; LastEvaluatedKey := Some [] |} :: rest)
       tableName startKey limit (itemsReceived self fuel) (scanFinished tableName) w = Ok tt w' /\
     requests w' = requests w ++ [(tableName, limit, startKey)] /\
     finished w' = finished w ++ [None] /\
     ended (stream w') = true).
Proof.
  split.
  - intros received callback. rewrite !_streamItems_cons. reflexivity.
  - intros Hwritable.
    destruct (_streamItems_pages self fuel tableName limit []
                {| Items := items; LastEvaluatedKey := Some [] |} rest startKey w)
      as [h' Hrun].
    + constructor.
    + reflexivity.
    + repeat constructor. exact Hwritable.
    + eexists. split; [exact Hrun |]. repeat split.
Qed.

Lemma empty_key_ends_scan_witness :
  let self := {| excludedTables := []; includedTables := None; readPercentage := 0.25;
                 stopOnFailure := false; base64Binary := false;
                 saveDataPipelineFormat := false |} in
  let item := TObj [("id", TObj [("S", TStr "a")])]%string in
  exists w',
    _streamItems (inr {| Items := [item]; LastEvaluatedKey := Some [] |}
                    :: [inr {| Items := [item]; LastEvaluatedKey := None |}])
      "T" None 1 (itemsReceived self 2) (scanFinished "T") new_World = Ok tt w' /\
    requests w' = [("T"%string, 1, None)] /\
    finished w' = [None] /\
    ended (stream w') = true.
Proof.
  intros self item.
  apply (proj2 (empty_key_ends_scan self 2 [item]
                  [inr {| Items := [item]; LastEvaluatedKey := None |}] "T" None 1 new_World)).
  apply List.Forall_cons; [| apply List.Forall_nil].
  split; [reflexivity | split; [cbn; lia | split; discriminate]].
Defined.

End Paginator.

(** ** BackupOrchestrator: the aggregate outcome *)

Section Orchestrator.

Implicit Types (self : DynamoBackup) (r : Run) (completions : list Completion).

Lemma result_callback_once err r :
  result (callback_once err r) = match result r with Some x => Some x | None => Some err end.
Proof. unfold callback_once. destruct (result r) eqn:Hr; [exact Hr | reflexivity]. Qed.

Lemma result_emit e r : result (emit e r) = result r.
Proof. reflexivity. Qed.

Lemma completed_emit e r : completed (emit e r) = completed r.
Proof. reflexivity. Qed.

Lemma completed_callback_once err r : completed (callback_once err r) = completed r.
Proof. unfold callback_once. destruct (result r); reflexivity. Qed.

(** What [done] does to the two fields the final callback depends on. *)
Lemma done_spec err r :
  completed (done err r) = Nat.pred (completed r) /\
  result (done err r) =
    match result r with
    | Some x => Some x
    | None =>
        match err with
        | Some e => Some (Some e)
        | None => if Nat.eqb (Nat.pred (completed r)) 0 then Some None else None
        end
    end.
Proof.
  unfold done. destruct err as [e |]; cbn [completed].
  - rewrite completed_callback_once, result_callback_once. split; reflexivity.
  - destruct (Nat.eqb (Nat.pred (completed r)) 0).
    + rewrite completed_callback_once, result_callback_once. split; reflexivity.
    + cbn [completed result]. destruct (result r); split; reflexivity.
Qed.

(** The error [backupTable]'s callback hands to [done], if any. *)
Lemma handle_upload self table err r :
  handle self (UploadDone table err) r =
  done (if stopOnFailure self then err else None)
       (emit (end_backup table)
          (match err with Some e => emit (error table e) r | None => r end)).
Proof. unfold handle. destruct err, (stopOnFailure self); reflexivity. Qed.

(** Once the final callback has been called, its argument stands. *)
Lemma result_settled self completions r x :
  result r = Some x ->
  result (fold_left (fun r c => handle self c r) completions r) = Some x.
Proof.
  revert r. induction completions as [| c completions IH]; intros r Hr; [exact Hr |].
  cbn [fold_left]. apply IH.
  destruct c as [table [e |] | table err].
  - exact Hr.
  - exact Hr.
  - rewrite handle_upload. destruct (done_spec (if stopOnFailure self then err else None)
      (emit (end_backup table) match err with Some e => emit (error table e) r | None => r end))
      as [_ ->].
    rewrite result_emit. destruct err; rewrite ?result_emit, Hr; reflexivity.
Qed.

(** The aggregate outcome, when every started job ends its upload: with
    [stopOnFailure] it is the error of the first upload that failed, without
    it success; in both cases an error of the scan does not count. *)
Lemma aggregate_outcome self completions r :
  result r = None ->
  completed r = length (uploads completions) ->
  (0 < completed r)%nat ->
  result (fold_left (fun r c => handle self c r) completions r) =
  Some (if stopOnFailure self then first_error (uploads completions) else None).
Proof.
  revert r. induction completions as [| c completions IH]; intros r Hr Hcount Hpos.
  - cbn in Hcount. lia.
  - cbn [fold_left]. destruct c as [table err | table err].
    + apply IH; destruct err; assumption.
    + rewrite handle_upload.
      set (r1 := emit (end_backup table)
                   match err with Some e => emit (error table e) r | None => r end).
      assert (Hr1 : result r1 = None) by (subst r1; destruct err; exact Hr).
      assert (Hc1 : completed r1 = completed r) by (subst r1; destruct err; reflexivity).
      change (uploads (UploadDone table err :: completions)) with (err :: uploads completions)
        in *.
      cbn [length] in Hcount.
      set (x := if stopOnFailure self then err else None).
      destruct (done_spec x r1) as [Hcompleted Hresult].
      rewrite Hr1, Hc1 in Hresult. rewrite Hc1 in Hcompleted.
      destruct x as [e |] eqn:Hx.
      * (* the upload failed and [stopOnFailure] is set *)
        rewrite (result_settled self completions _ (Some e) Hresult).
        subst x. destruct (stopOnFailure self); [| discriminate].
        rewrite Hx. reflexivity.
      * assert (Hfirst : (if stopOnFailure self then first_error (err :: uploads completions)
                          else None) =
                         (if stopOnFailure self then first_error (uploads completions)
                          else None)).
        { subst x. destruct (stopOnFailure self); [| reflexivity]. rewrite Hx. reflexivity. }
        rewrite Hfirst.
        destruct (Nat.eqb_spec (Nat.pred (completed r)) 0) as [Hzero | Hmore].
        -- rewrite (result_settled self completions _ None Hresult).
           destruct (uploads completions) as [| y ys]; [| cbn [length] in Hcount; lia].
           destruct (stopOnFailure self); reflexivity.
        -- apply IH; [exact Hresult | lia | lia].
Qed.

(** No job is cancelled: whatever the final callback was told, the end of
    every upload is handled and announced. *)
Lemma end_backup_emitted self completions r table err :
  UploadDone table err ∈ completions ->
  end_backup table ∈ emitted (fold_left (fun r c => handle self c r) completions r).
Proof.
  assert (Hkeep : forall completions r e,
             e ∈ emitted r ->
             e ∈ emitted (fold_left (fun r c => handle self c r) completions r)).
  { clear. intros completions. induction completions as [| c completions IH]; intros r e He;
      [exact He |].
    cbn [fold_left]. apply IH.
    assert (Hdone : forall x r', e ∈ emitted r' -> e ∈ emitted (done x r')).
    { intros x r' He'. unfold done, callback_once.
      destruct x; cbn [result emitted completed];
        repeat match goal with |- context [match ?b with _ => _ end] => destruct b end;
        exact He'. }
    destruct c as [table [e' |] | table err].
    - cbn [handle emit emitted]. apply elem_of_app. left. exact He.
    - exact He.
    - rewrite handle_upload. apply Hdone. cbn [emit emitted]. apply elem_of_app. left.
      destruct err; [cbn [emit emitted]; apply elem_of_app; left |]; exact He. }
  revert r. induction completions as [| c completions IH]; intros r Hin.
  - apply elem_of_nil in Hin. contradiction.
  - cbn [fold_left]. apply elem_of_cons in Hin as [<- | Hin]; [| apply IH; exact Hin].
    apply Hkeep. rewrite handle_upload. unfold done, callback_once.
    destruct (if stopOnFailure self then err else None); cbn [result emitted completed];
      repeat match goal with |- context [match ?b with _ => _ end] => destruct b end;
      cbn [emit emitted]; apply elem_of_app; right; apply list_elem_of_singleton; reflexivity.
Qed.

(** C7 at a concrete run: [stopOnFailure] is set, the one table's scan fails
    (the upload of what was streamed before succeeds).  The failure is
    announced by an [error] event, and the final callback is called without
    an error.  Had the upload failed instead, the final callback would have
    received its error. *)
Theorem scan_failure_not_aggregated :
  let self := {| excludedTables := []; includedTables := None; readPercentage := 0.25;
                 stopOnFailure := true; base64Binary := false;
                 saveDataPipelineFormat := false |} in
  let responses := [inr {| TableNames := ["T"%string]; LastEvaluatedTableName := None |}] in
  backupAllTables self responses
    [ScanDone "T" (Some "scan failed"%string); UploadDone "T" None] =
    {| emitted := [start_backup "T"; error "T" "scan failed"; end_backup "T"];
       completed := 0; result := Some None |} /\
  backupAllTables self responses
    [ScanDone "T" None; UploadDone "T" (Some "upload failed"%string)] =
    {| emitted := [start_backup "T"; error "T" "upload failed"; end_backup "T"];
       completed := 0; result := Some (Some "upload failed"%string) |}.
Proof. split; reflexivity. Qed.

End Orchestrator.
